(** * Winding-number mesh booleans (libigl, igl/copyleft/boolean/mesh_boolean.cpp)

    A shallow embedding of [mesh_boolean.cpp]: the merge step
    ([resolve_intersections]), the per-facet classification and boundary
    extraction ([per_face_winding_number_binary_operation]), the resolution
    of duplicated facets ([resolve_duplicated_faces]) and the three
    [mesh_boolean] overloads.

    Conventions of the embedding.
    - An [int] is a [Z] and every conversion to [int] is written [to_int]
      (two's complement wrap-around on 32 bits).
    - An [#F by 3] index matrix is a list of rows, a row is a triple of [Z].
    - [assert(c)] is an operation that fails with [AssertionFailed] when [c]
      is false (the program is compiled with assertions enabled); [throw]
      fails with [RuntimeError].
    - The collaborators the file only calls ([unique_simplices],
      [propagate_winding_numbers], [remove_unreferenced],
      [remesh_self_intersections], [assign_scalar]) are parameters of the
      functions that call them; every call of a collaborator is recorded in
      a call log. *)

From Stdlib Require Import String.
From Stdlib Require Import ZArith List Bool Lia Arith Sorted Permutation.
Import ListNotations.
Open Scope Z_scope.

(* ================================================================== *)
(** * Machine integers *)
(* ================================================================== *)

Definition int_modulus : Z := 2 ^ 32.

(** Conversion of an integer value to the 32-bit [int]. *)
Definition to_int (z : Z) : Z := (z + 2 ^ 31) mod int_modulus - 2 ^ 31.

(** Conversion of an [int] to [size_t] (64 bits, unsigned), the result used
    as a position in a container. *)
Definition to_size_t (z : Z) : nat := Z.to_nat (z mod 2 ^ 64).

(* ================================================================== *)
(** * Failures *)
(* ================================================================== *)

Inductive error : Type :=
| AssertionFailed (condition : string)
| RuntimeError (what : string)
| CollaboratorFailure (who : string).

Inductive result (A : Type) : Type :=
| Ok (a : A)
| Err (e : error).
Arguments Ok {A} a.
Arguments Err {A} e.

Definition rbind {A B} (r : result A) (k : A -> result B) : result B :=
  match r with
  | Ok a => k a
  | Err e => Err e
  end.

Definition rassert (c : bool) (condition : string) : result unit :=
  if c then Ok tt else Err (AssertionFailed condition).

(* ================================================================== *)
(** * Facets *)
(* ================================================================== *)

(** One row of an index matrix with three columns. *)
Definition Face : Type := (Z * Z * Z)%type.

Definition col0 (f : Face) : Z := fst (fst f).
Definition col1 (f : Face) : Z := snd (fst f).
Definition col2 (f : Face) : Z := snd f.

(** [F.row(i)]; a row outside the matrix reads as zeros. *)
Definition row (F : list Face) (i : nat) : Face := nth i F (0, 0, 0).

(** [F.row(i).reverse()] *)
Definition reverse (f : Face) : Face := (col2 f, col1 f, col0 f).

Definition face_eqb (f g : Face) : bool :=
  (col0 f =? col0 g) && (col1 f =? col1 g) && (col2 f =? col2 g).

(** The three indices of a row in ascending order: the identity of the
    row as an unordered triple. *)
Definition sort3 (f : Face) : Face :=
  let '(a, b, c) := f in
  if a <=? b then
    if b <=? c then (a, b, c)
    else if a <=? c then (a, c, b) else (c, a, b)
  else
    if a <=? c then (b, a, c)
    else if b <=? c then (b, c, a) else (c, b, a).

Definition same_simplex (f g : Face) : bool := face_eqb (sort3 f) (sort3 g).

Definition pairwise_distinct (f : Face) : Prop :=
  col0 f <> col1 f /\ col1 f <> col2 f /\ col0 f <> col2 f.

Definition in_bounds (n : nat) (f : Face) : Prop :=
  0 <= col0 f < Z.of_nat n /\ 0 <= col1 f < Z.of_nat n /\
  0 <= col2 f < Z.of_nat n.

Definition mentions (f : Face) (a : Z) : Prop :=
  a = col0 f \/ a = col1 f \/ a = col2 f.

Definition map_face (r : Z -> Z) (f : Face) : Face :=
  (r (col0 f), r (col1 f), r (col2 f)).

(** In-place update of entry [n] of a vector; an index outside the vector
    leaves it as it is. *)
Fixpoint update_at {A} (n : nat) (f : A -> A) (l : list A) : list A :=
  match l, n with
  | [], _ => []
  | x :: l', O => f x :: l'
  | x :: l', S n' => x :: update_at n' f l'
  end.

(* ================================================================== *)
(** * resolve_duplicated_faces (mesh_boolean.cpp, lines 86-165) *)
(* ================================================================== *)

(** The outputs of [igl::unique_simplices(F1,uF,IA,IC)]. *)
Record Simplices : Type := mkSimplices {
  uF : list Face;
  IA : list nat;
  IC : list nat
}.

(** The vectors filled by the first loop. *)
Record Tally : Type := mkTally {
  uF2F : list (list Z);
  counts : list Z;
  ucounts : list Z
}.

(** The test of lines 112-121: the row equals the unique row up to a
    cyclic rotation. *)
Definition consistent (f u : Face) : bool :=
  ((col0 f =? col0 u) && (col1 f =? col1 u) && (col2 f =? col2 u)) ||
  ((col0 f =? col1 u) && (col1 f =? col2 u) && (col2 f =? col0 u)) ||
  ((col0 f =? col2 u) && (col1 f =? col0 u) && (col2 f =? col1 u)).

(** [int(i+1) * (consistent?1:-1)] *)
Definition signed_face (i : nat) (c : bool) : Z :=
  to_int (to_int (Z.of_nat i + 1) * (if c then 1 else -1)).

(** [abs(fid)-1], stored in a [std::vector<size_t>]. *)
Definition face_of_signed (fid : Z) : nat := to_size_t (to_int (Z.abs fid - 1)).

Section ResolveDuplicatedFaces.

Variable unique_simplices : list Face -> Simplices.

(** Body of the loop over all faces (lines 110-125). *)
Definition tally_face (F1 : list Face) (S : Simplices) (t : Tally) (i : nat)
  : Tally :=
  let ui := nth i (IC S) 0%nat in
  let c := consistent (row F1 i) (row (uF S) ui) in
  {| uF2F := update_at ui (fun fs => fs ++ [signed_face i c]) (uF2F t);
     counts := update_at ui (fun n => to_int (n + (if c then 1 else -1)))
                 (counts t);
     ucounts := update_at ui (fun n => to_int (n + 1)) (ucounts t) |}.

Definition tally_init (num_unique_faces : nat) : Tally :=
  {| uF2F := repeat [] num_unique_faces;
     counts := repeat 0 num_unique_faces;
     ucounts := repeat 0 num_unique_faces |}.

Definition tally (F1 : list Face) (S : Simplices) : Tally :=
  fold_left (tally_face F1 S) (seq 0 (length F1))
    (tally_init (length (uF S))).

(** Body of the loop over the unique faces (lines 128-156): the faces it
    pushes on [kept_faces]. *)
Definition resolve_group (t : Tally) (i : nat) : result (list nat) :=
  if nth i (ucounts t) 0 =? 1 then
    Ok [face_of_signed (nth 0 (nth i (uF2F t) []) 0)]
  else if nth i (counts t) 0 =? 1 then
    match find (fun fid => 0 <? fid) (nth i (uF2F t) []) with
    | Some fid => Ok [face_of_signed fid]
    | None => Err (AssertionFailed "found")
    end
  else if nth i (counts t) 0 =? -1 then
    match find (fun fid => fid <? 0) (nth i (uF2F t) []) with
    | Some fid => Ok [face_of_signed fid]
    | None => Err (AssertionFailed "found")
    end
  else
    rbind (rassert (nth i (counts t) 0 =? 0) "counts[i] == 0")
          (fun _ => Ok []).

Fixpoint push_groups (t : Tally) (groups : list nat) (kept_faces : list nat)
  : result (list nat) :=
  match groups with
  | [] => Ok kept_faces
  | i :: rest =>
      rbind (resolve_group t i)
            (fun pushed => push_groups t rest (kept_faces ++ pushed))
  end.

(** The vector [kept_faces] after the second loop. *)
Definition kept_faces_of (F1 : list Face) : result (list nat) :=
  let S := unique_simplices F1 in
  let num_unique_faces := length (uF S) in
  rbind (rassert (length (IA S) =? length (uF S))%nat
                 "IA.rows() == num_unique_faces")
        (fun _ => push_groups (tally F1 S) (seq 0 num_unique_faces) []).

Definition resolve_duplicated_faces (F1 : list Face) (J1 : list Z)
  : result (list Face * list Z) :=
  rbind (kept_faces_of F1)
        (fun kept_faces =>
           Ok (map (fun k => row F1 k) kept_faces,
               map (fun k => nth k J1 0) kept_faces)).

End ResolveDuplicatedFaces.

(* ================================================================== *)
(** * unique_simplices *)
(* ================================================================== *)

(** Position of the first element that satisfies [p]; the length of the
    list when there is none. *)
Fixpoint find_index {A} (p : A -> bool) (l : list A) : nat :=
  match l with
  | [] => O
  | x :: l' => if p x then O else S (find_index p l')
  end.

(** Position of the first row of [F] with the unordered triple of row [i]. *)
Definition first_occurrence (F : list Face) (i : nat) : nat :=
  find_index (same_simplex (row F i)) F.

(** Modelled from the spec: [igl::unique_simplices] (unique_simplices.cpp is
    absent). The rows are grouped by their unordered vertex triple; the
    representative of a group is its first occurrence ([uF] holds that row
    as it is written in [F], [IA] its position), the groups are numbered in
    the order of their first occurrences, and [IC] maps every row to the
    number of its group. *)
Definition unique_simplices_first (F : list Face) : Simplices :=
  let ia := filter (fun i => first_occurrence F i =? i)%nat
                   (seq 0 (length F)) in
  {| uF := map (row F) ia;
     IA := ia;
     IC := map (fun i => find_index (Nat.eqb (first_occurrence F i)) ia)
               (seq 0 (length F)) |}.

(* ================================================================== *)
(** * The parts of the library this file relies on *)
(* ================================================================== *)

(** A matrix of coordinates, as the list of its rows. *)
Definition Matrix (C : Type) : Type := list (list C).

(** [Eigen::MatrixXi]: the number of columns and the rows. *)
Record MatrixXi : Type := mkMatrixXi {
  cols : Z;
  rows : list (list Z)
}.

(** [W(i,k)] *)
Definition coeff (W : MatrixXi) (i k : nat) : Z := nth k (nth i (rows W) []) 0.

(** Modelled from the spec: MeshBooleanType.h is absent; the five
    enumerators, numbered in the order the spec lists them. The operation
    passed to [mesh_boolean] is the integer value of the enumeration. *)
Definition MESH_BOOLEAN_TYPE_UNION : Z := 0.
Definition MESH_BOOLEAN_TYPE_INTERSECT : Z := 1.
Definition MESH_BOOLEAN_TYPE_MINUS : Z := 2.
Definition MESH_BOOLEAN_TYPE_XOR : Z := 3.
Definition MESH_BOOLEAN_TYPE_RESOLVE : Z := 4.

Definition recognized (type : Z) : Prop :=
  type = MESH_BOOLEAN_TYPE_UNION \/ type = MESH_BOOLEAN_TYPE_INTERSECT \/
  type = MESH_BOOLEAN_TYPE_MINUS \/ type = MESH_BOOLEAN_TYPE_XOR \/
  type = MESH_BOOLEAN_TYPE_RESOLVE.

(** Modelled from the spec: BinaryWindingNumberOperations.h is absent; the
    reductions of the OperationEvaluator table, applied to the winding
    numbers (wA, wB) of one side of a facet, with verdict 1 for inside. *)
Definition BinaryUnion (wA wB : Z) : Z :=
  if (0 <? wA) || (0 <? wB) then 1 else 0.
Definition BinaryIntersect (wA wB : Z) : Z :=
  if (0 <? wA) && (0 <? wB) then 1 else 0.
Definition BinaryMinus (wA wB : Z) : Z :=
  if (0 <? wA) && negb (0 <? wB) then 1 else 0.
Definition BinaryXor (wA wB : Z) : Z :=
  if xorb (0 <? wA) (0 <? wB) then 1 else 0.

(** Modelled from the spec: BinaryWindingNumberOperations.h is absent; the
    two policies of the KeepClassifier, applied to the reduced verdicts
    (w_out_result, w_in_result). *)
Definition KeepInside (w_out w_in : Z) : Z :=
  if (w_in =? 1) && (w_out =? 0) then 1
  else if (w_out =? 1) && (w_in =? 0) then -1
  else 0.
Definition KeepAll (w_out w_in : Z) : Z := 1.

(** The functions of other files that [mesh_boolean.cpp] calls. A call
    either returns its outputs or fails. [BinaryResolve] is the reduction
    of the RESOLVE operation, about which the spec says only that its
    result is not used. *)
Record Collaborators (CoordA CoordE CoordC : Type) : Type := mkCollaborators {
  (* outputs Vr, Fr, J, I of cgal::remesh_self_intersections *)
  remesh_self_intersections :
    Matrix CoordA -> list Face ->
    result (Matrix CoordE * list Face * list Z * list Z);
  (* output W of cgal::propagate_winding_numbers(V, F, labels, W) *)
  propagate_winding_numbers :
    Matrix CoordE -> list Face -> list Z -> result MatrixXi;
  unique_simplices : list Face -> Simplices;
  (* outputs NV, NF, I of igl::remove_unreferenced *)
  remove_unreferenced :
    forall C : Type, Matrix C -> list Face ->
    result (Matrix C * list Face * list Z);
  assign_scalar : CoordE -> CoordC;
  BinaryResolve : Z -> Z -> Z
}.
Arguments remesh_self_intersections {CoordA CoordE CoordC} _ _ _.
Arguments propagate_winding_numbers {CoordA CoordE CoordC} _ _ _ _.
Arguments unique_simplices {CoordA CoordE CoordC} _ _.
Arguments remove_unreferenced {CoordA CoordE CoordC} _ {C} _ _.
Arguments assign_scalar {CoordA CoordE CoordC} _ _.
Arguments BinaryResolve {CoordA CoordE CoordC} _ _ _.

(* ================================================================== *)
(** * Procedures: output arguments, call log, failures *)
(* ================================================================== *)

Inductive call : Type :=
| Call_resolve_func
| Call_remesh_self_intersections
| Call_propagate_winding_numbers
| Call_unique_simplices
| Call_remove_unreferenced.

(** The output arguments [VC], [FC], [J] of a call of [mesh_boolean] and the
    collaborators called so far. *)
Record State (C : Type) : Type := mkState {
  out_VC : Matrix C;
  out_FC : list Face;
  out_J : list Z;
  calls : list call
}.
Arguments mkState {C} _ _ _ _.
Arguments out_VC {C} _.
Arguments out_FC {C} _.
Arguments out_J {C} _.
Arguments calls {C} _.

Definition M (C A : Type) : Type := State C -> result A * State C.

Definition ret {C A} (a : A) : M C A := fun s => (Ok a, s).

Definition bind {C A B} (m : M C A) (k : A -> M C B) : M C B :=
  fun s =>
    match m s with
    | (Ok a, s') => k a s'
    | (Err e, s') => (Err e, s')
    end.

Notation "x <- m ;; k" := (bind m (fun x => k))
  (at level 61, m at next level, right associativity).
Notation "' pat <- m ;; k" := (bind m (fun x => match x with pat => k end))
  (at level 61, pat pattern, m at next level, right associativity).

(** [assert(c)] *)
Definition massert {C} (c : bool) (condition : string) : M C unit :=
  fun s => (rassert c condition, s).

(** [throw std::runtime_error(what)] *)
Definition throw {C A} (what : string) : M C A :=
  fun s => (Err (RuntimeError what), s).

(** A call of a collaborator. *)
Definition invoke {C A} (c : call) (r : result A) : M C A :=
  fun s => (r, mkState (out_VC s) (out_FC s) (out_J s) (calls s ++ [c])).

(** Assignment of the output arguments [VC] and [FC]. *)
Definition assign_VC_FC {C} (VC : Matrix C) (FC : list Face) : M C unit :=
  fun s => (Ok tt, mkState VC FC (out_J s) (calls s)).

(* ================================================================== *)
(** * mesh_boolean.cpp *)
(* ================================================================== *)

Section MeshBoolean.

Context {CoordA CoordE CoordC : Type}.
Variable lib : Collaborators CoordA CoordE CoordC.

(** The type of [resolve_func]: outputs [Vo], [Fo], [J]. *)
Definition ResolveFunc : Type :=
  Matrix CoordA -> list Face -> M CoordC (Matrix CoordE * list Face * list Z).

(** Lines 36-58; [Iv] is the vector [I] of the source. *)
Definition igl_resolve : ResolveFunc := fun V F =>
  ' (Vr, Fr, J, Iv) <-
      invoke Call_remesh_self_intersections
             (remesh_self_intersections lib V F) ;;
  _ <- massert (length Iv =? length Vr)%nat "I.size() == Vr.rows()" ;;
  (* Merge coinciding vertices into non-manifold vertices. *)
  let Fr := map (map_face (fun a => nth (Z.to_nat a) Iv 0)) Fr in
  (* Remove unreferenced vertices. *)
  ' (Vo, Fo, UIM) <-
      invoke Call_remove_unreferenced (remove_unreferenced lib Vr Fr) ;;
  ret (Vo, Fo, J).

(** [V << VA, VB] *)
Definition merged_vertices (VA VB : Matrix CoordA) : Matrix CoordA :=
  VA ++ VB.

(** [F << FA, FB.array() + VA.rows()]: the sum is computed on [int]. *)
Definition shift_index (VA_rows : nat) (a : Z) : Z :=
  to_int (a + to_int (Z.of_nat VA_rows)).

Definition merged_faces (VA_rows : nat) (FA FB : list Face) : list Face :=
  FA ++ map (map_face (shift_index VA_rows)) FB.

(** Lines 70-84: combine mesh A with mesh B and resolve all
    intersections. *)
Definition resolve_intersections (VA : Matrix CoordA) (FA : list Face)
    (VB : Matrix CoordA) (FB : list Face) (resolve_func : ResolveFunc)
  : M CoordC (Matrix CoordE * list Face * list Z) :=
  let V := merged_vertices VA VB in
  let F := merged_faces (length VA) FA FB in
  _ <- invoke Call_resolve_func (Ok tt) ;;
  resolve_func V F.

(** Lines 215-217: the lambda takes its argument as an [int]. *)
Definition labels_of (FA_rows : nat) (CJ : list Z) : list Z :=
  map (fun i => if to_int i <? Z.of_nat FA_rows then 0 else 1) CJ.

(** [W_tmp << W, Eigen::MatrixXi::Zero(num_faces, 2)] *)
Definition pad_two_columns (W : MatrixXi) : MatrixXi :=
  {| cols := 4; rows := map (fun r => r ++ [0; 0]) (rows W) |}.

(** Lines 220-227. *)
Definition four_columns (FB : list Face) (W : MatrixXi) : M CoordC MatrixXi :=
  if cols W =? 2 then
    _ <- massert (length FB =? 0)%nat "FB.rows() == 0" ;;
    ret (pad_two_columns W)
  else
    _ <- massert (cols W =? 4) "W.cols() == 4" ;;
    ret W.

(** Lines 230-237: the resulting winding numbers [Wr(i,0)], [Wr(i,1)]. *)
Definition resulting_winding (wind_num_op : Z -> Z -> Z) (W : MatrixXi)
    (num_faces : nat) : list (Z * Z) :=
  map (fun i => (wind_num_op (coeff W i 0) (coeff W i 2),
                 wind_num_op (coeff W i 1) (coeff W i 3)))
      (seq 0 num_faces).

(** Line 240-242: [(i+1)*(ori?1:-1)] is computed on [size_t] and returned
    as an [int]. *)
Definition index_to_signed_index (i : nat) (ori : bool) : Z :=
  to_int (((Z.of_nat i + 1) * (if ori then 1 else -1)) mod 2 ^ 64).

(** Lines 246-254. *)
Definition select_face (keep : Z -> Z -> Z) (Wr : list (Z * Z))
    (selected : list Z) (i : nat) : list Z :=
  let should_keep := keep (fst (nth i Wr (0, 0))) (snd (nth i Wr (0, 0))) in
  if 0 <? should_keep then selected ++ [index_to_signed_index i true]
  else if should_keep <? 0 then selected ++ [index_to_signed_index i false]
  else selected.

Definition select_faces (keep : Z -> Z -> Z) (Wr : list (Z * Z))
    (num_faces : nat) : list Z :=
  fold_left (select_face keep Wr) (seq 0 num_faces) [].

(** Lines 256-268: the rows of [kept_faces] and [kept_face_indices]. *)
Definition kept_face_rows (F : list Face) (selected : list Z) : list Face :=
  map (fun s =>
         let idx := face_of_signed s in
         if 0 <? s then row F idx else reverse (row F idx))
      selected.

Definition kept_face_index_rows (CJ : list Z) (selected : list Z) : list Z :=
  map (fun s => nth (face_of_signed s) CJ 0) selected.

(** Lines 182-286. The vectors [G] and [J] of the last block are local to
    it: the output argument [J] is not assigned. *)
Definition per_face_winding_number_binary_operation
    (VA : Matrix CoordA) (FA : list Face)
    (VB : Matrix CoordA) (FB : list Face)
    (wind_num_op : Z -> Z -> Z) (keep : Z -> Z -> Z)
    (resolve_fun : ResolveFunc) : M CoordC unit :=
  (* Generate combined mesh. *)
  ' (V, F, CJ) <- resolve_intersections VA FA VB FB resolve_fun ;;
  (* Compute winding numbers on each side of each facet. *)
  let num_faces := length F in
  let labels := labels_of (length FA) CJ in
  W <- invoke Call_propagate_winding_numbers
              (propagate_winding_numbers lib V F labels) ;;
  _ <- massert (length (rows W) =? num_faces)%nat "W.rows() == num_faces" ;;
  W <- four_columns FB W ;;
  (* Compute resulting winding number. *)
  let Wr := resulting_winding wind_num_op W num_faces in
  (* Extract boundary separating inside from outside. *)
  let selected := select_faces keep Wr num_faces in
  let kept_faces := kept_face_rows F selected in
  let kept_face_indices := kept_face_index_rows CJ selected in
  (* Finally, remove duplicated faces and unreferenced vertices. *)
  ' (G, J) <-
      invoke Call_unique_simplices
             (resolve_duplicated_faces (unique_simplices lib)
                kept_faces kept_face_indices) ;;
  let Vs := map (map (assign_scalar lib)) V in
  ' (VC, FC, newIM) <-
      invoke Call_remove_unreferenced (remove_unreferenced lib Vs G) ;;
  assign_VC_FC VC FC.

(** Lines 297-340: the overload with [resolve_func] and [J]. *)
Definition mesh_boolean
    (VA : Matrix CoordA) (FA : list Face)
    (VB : Matrix CoordA) (FB : list Face)
    (type : Z) (resolve_func : ResolveFunc) : M CoordC unit :=
  if type =? MESH_BOOLEAN_TYPE_UNION then
    per_face_winding_number_binary_operation
      VA FA VB FB BinaryUnion KeepInside resolve_func
  else if type =? MESH_BOOLEAN_TYPE_INTERSECT then
    per_face_winding_number_binary_operation
      VA FA VB FB BinaryIntersect KeepInside resolve_func
  else if type =? MESH_BOOLEAN_TYPE_MINUS then
    per_face_winding_number_binary_operation
      VA FA VB FB BinaryMinus KeepInside resolve_func
  else if type =? MESH_BOOLEAN_TYPE_XOR then
    per_face_winding_number_binary_operation
      VA FA VB FB BinaryXor KeepInside resolve_func
  else if type =? MESH_BOOLEAN_TYPE_RESOLVE then
    per_face_winding_number_binary_operation
      VA FA VB FB (BinaryResolve lib) KeepAll resolve_func
  else
    throw "Unsupported boolean type.".

(** Lines 350-374: the overload with [J] and the default resolver. *)
Definition mesh_boolean_J
    (VA : Matrix CoordA) (FA : list Face)
    (VB : Matrix CoordA) (FB : list Face) (type : Z) : M CoordC unit :=
  let resolve_func := igl_resolve in
  mesh_boolean VA FA VB FB type resolve_func.

(** Lines 383-393: the overload without [J]. The vector [J] it passes on
    is a local variable, empty when it is declared and gone when the call
    returns; the [out_J] of the caller's state is no argument of this
    overload. *)
Definition mesh_boolean_VF
    (VA : Matrix CoordA) (FA : list Face)
    (VB : Matrix CoordA) (FB : list Face) (type : Z) : M CoordC unit :=
  fun s =>
    let J : list Z := [] in
    let '(r, s') :=
      mesh_boolean_J VA FA VB FB type
        (mkState (out_VC s) (out_FC s) J (calls s)) in
    (r, mkState (out_VC s') (out_FC s') (out_J s) (calls s')).

End MeshBoolean.

(* ================================================================== *)
(** * remove_unreferenced and the collaborators of the examples *)
(* ================================================================== *)

(** Some facet refers to vertex [v]. *)
Definition referenced (F : list Face) (v : nat) : bool :=
  existsb (fun f => (col0 f =? Z.of_nat v) || (col1 f =? Z.of_nat v) ||
                    (col2 f =? Z.of_nat v)) F.

(** The number of referenced vertices before vertex [a]. *)
Definition new_index (F : list Face) (a : Z) : Z :=
  Z.of_nat (length (filter (referenced F) (seq 0 (Z.to_nat a)))).

(** Modelled from the spec: [igl::remove_unreferenced] (remove_unreferenced.cpp
    is absent). It drops the vertices no facet refers to, renumbers the
    indices of the facets accordingly and keeps the order of the facets and
    of the remaining vertices; the third output maps an old vertex to its
    new index, or to -1. *)
Definition remove_unreferenced_model {C : Type} (V : Matrix C) (F : list Face)
  : result (Matrix C * list Face * list Z) :=
  Ok (map snd (filter (fun p => referenced F (fst p))
                      (combine (seq 0 (length V)) V)),
      map (map_face (new_index F)) F,
      map (fun v => if referenced F v then new_index F (Z.of_nat v) else -1)
          (seq 0 (length V))).

(** Collaborators for the examples, with integer coordinates everywhere.
    The remesher finds nothing to split: it returns the mesh it is given,
    every facet born from itself, and for every vertex the first vertex
    with the same coordinates (the vector [I] of coinciding vertices).
    The winding numbers are those of two disjoint solids with outward
    normals: a facet of A has (0,1) for A and (0,0) for B, a facet of B the
    converse. *)
Definition same_point (v w : list Z) : bool :=
  if list_eq_dec Z.eq_dec v w then true else false.

Definition example_remesh (V : Matrix Z) (F : list Face)
  : result (Matrix Z * list Face * list Z * list Z) :=
  Ok (V, F, map Z.of_nat (seq 0 (length F)),
      map (fun v => Z.of_nat (find_index (same_point v) V)) V).

Definition example_propagate (V : Matrix Z) (F : list Face) (labels : list Z)
  : result MatrixXi :=
  Ok {| cols := 4;
        rows := map (fun l => if l =? 0 then [0; 1; 0; 0] else [0; 0; 0; 1])
                    labels |}.

Definition example_lib : Collaborators Z Z Z :=
  {| remesh_self_intersections := example_remesh;
     propagate_winding_numbers := example_propagate;
     unique_simplices := unique_simplices_first;
     remove_unreferenced := @remove_unreferenced_model;
     assign_scalar := fun x => x;
     BinaryResolve := fun _ _ => 1 |}.

Definition empty_state : State Z := mkState [] [] [] [].

(** The same collaborators with a propagator that returns a table of three
    columns. *)
Definition example_lib_three_columns : Collaborators Z Z Z :=
  {| remesh_self_intersections := example_remesh;
     propagate_winding_numbers :=
       fun _ F _ => Ok {| cols := 3; rows := map (fun _ => [0; 0; 0]) F |};
     unique_simplices := unique_simplices_first;
     remove_unreferenced := @remove_unreferenced_model;
     assign_scalar := fun x => x;
     BinaryResolve := fun _ _ => 1 |}.

(** A tetrahedron with outward facets, and the same tetrahedron moved by
    10 along the first axis. *)
Definition example_FA : list Face :=
  [(0, 2, 1); (0, 1, 3); (1, 2, 3); (2, 0, 3)].
Definition example_VA : Matrix Z :=
  [[0; 0; 0]; [1; 0; 0]; [0; 1; 0]; [0; 0; 1]].
Definition example_VB : Matrix Z :=
  [[10; 0; 0]; [11; 0; 0]; [10; 1; 0]; [10; 0; 1]].





(** A facet list with four groups of duplicated facets: signed count +1
    (faces 0, 1, 2), a single facet (3), signed count 0 (4, 5) and signed
    count -1 (6, 7, 8); and the birth facets that go with it. *)
Definition example_faces : list Face :=
  [(0, 1, 2); (1, 2, 0); (2, 1, 0); (3, 4, 5); (7, 6, 5); (5, 6, 7);
   (8, 9, 10); (10, 9, 8); (9, 8, 10)].

Definition example_birth : list Z :=
  [100; 101; 102; 103; 104; 105; 106; 107; 108].

(** Three copies of one facet with the same orientation, after another
    facet. *)
Definition example_triple : list Face :=
  [(3, 4, 5); (0, 1, 2); (1, 2, 0); (2, 0, 1)].

(** A facet, another facet, and two reversed copies of the first. *)
Definition example_reversed_twice : list Face :=
  [(1, 2, 3); (4, 5, 6); (3, 2, 1); (3, 2, 1)].

(* ================================================================== *)
(** * Groups of duplicated facets: the notions of the specification *)
(* ================================================================== *)

(** The contract of [unique_simplices] on the facet list [F]: [IC] numbers
    the groups of rows with the same unordered triple, and the unique row of
    a group is one of its rows, at position [IA]. *)
Record unique_simplices_spec (F : list Face) (S : Simplices) : Prop := {
  us_IA_length : length (IA S) = length (uF S);
  us_IC_length : length (IC S) = length F;
  us_IC_bound : forall i, (i < length F)%nat ->
      (nth i (IC S) 0 < length (uF S))%nat;
  us_IC_group : forall i j, (i < length F)%nat -> (j < length F)%nat ->
      (nth i (IC S) 0%nat = nth j (IC S) 0%nat <->
       same_simplex (row F i) (row F j) = true);
  us_representative : forall u, (u < length (uF S))%nat ->
      (nth u (IA S) 0 < length F)%nat /\
      nth (nth u (IA S) 0%nat) (IC S) 0%nat = u /\
      row (uF S) u = row F (nth u (IA S) 0%nat)
}.

(** The positions of the facets of [F1] with the unordered triple of [f]. *)
Definition facet_group (F1 : list Face) (f : Face) : list nat :=
  filter (fun j => same_simplex (row F1 j) f) (seq 0 (length F1)).

(** The occurrences of the group of [f] with the orientation of the
    representative [rep], and those with the other orientation. *)
Definition consistent_occurrences (F1 : list Face) (f rep : Face) : list nat :=
  filter (fun j => consistent (row F1 j) rep) (facet_group F1 f).

Definition reversed_occurrences (F1 : list Face) (f rep : Face) : list nat :=
  filter (fun j => negb (consistent (row F1 j) rep)) (facet_group F1 f).

Definition signed_count (F1 : list Face) (f rep : Face) : Z :=
  Z.of_nat (length (consistent_occurrences F1 f rep)) -
  Z.of_nat (length (reversed_occurrences F1 f rep)).

(** The kept faces that belong to the group of [f]. *)
Definition survivors (F1 : list Face) (kept : list nat) (f : Face) : list nat :=
  filter (fun k => same_simplex (row F1 k) f) kept.

(** The representative [unique_simplices] gives to the group of facet [i]. *)
Definition representative (S : Simplices) (i : nat) : Face :=
  row (uF S) (nth i (IC S) 0%nat).

(** The faces among the first [n] that [IC] sends to the unique face [u]. *)
Definition group_members (S : Simplices) (u n : nat) : list nat :=
  filter (fun j => (nth j (IC S) 0 =? u)%nat) (seq 0 n).

(** The orientation of face [j] with respect to its representative. *)
Definition orientation (F1 : list Face) (S : Simplices) (j : nat) : bool :=
  consistent (row F1 j) (representative S j).

(** What the three vectors of the first loop hold after the first [k]
    faces: for every unique face, the signed faces on top of it in input
    order, the signed count and the count. *)
Definition tally_holds (F1 : list Face) (S : Simplices) (k : nat) (t : Tally)
  : Prop :=
  let m := length (uF S) in
  let o := orientation F1 S in
  length (uF2F t) = m /\ length (counts t) = m /\ length (ucounts t) = m /\
  forall u, (u < m)%nat ->
    nth u (uF2F t) [] =
      map (fun j => signed_face j (o j)) (group_members S u k) /\
    nth u (counts t) 0 =
      Z.of_nat (length (filter o (group_members S u k))) -
      Z.of_nat (length (filter (fun j => negb (o j)) (group_members S u k))) /\
    nth u (ucounts t) 0 = Z.of_nat (length (group_members S u k)).

(** The decision rule of the DuplicateResolver, in the words of the
    specification: for a group with the occurrences [mem], of which [cons]
    are consistent and [rev] reversed, the faces that survive. *)
Definition group_decision (mem cons rev : list nat) : result (list nat) :=
  let signed := Z.of_nat (length cons) - Z.of_nat (length rev) in
  if (length mem =? 1)%nat then Ok mem
  else if signed =? 1 then Ok (firstn 1 cons)
  else if signed =? -1 then Ok (firstn 1 rev)
  else if signed =? 0 then Ok []
  else Err (AssertionFailed "counts[i] == 0").

(** The decision for the unique face [u] of the facet list [F1]. *)
Definition decide_group (F1 : list Face) (S : Simplices) (u : nat)
  : result (list nat) :=
  let mem := group_members S u (length F1) in
  group_decision mem (filter (orientation F1 S) mem)
                 (filter (fun j => negb (orientation F1 S j)) mem).

(** The faces the second loop pushes for the unique face [u]. *)
Definition pushed (t : Tally) (u : nat) : list nat :=
  match resolve_group t u with
  | Ok p => p
  | Err _ => []
  end.

(* ================================================================== *)
(** * Classification and compaction: the notions of the specification *)
(* ================================================================== *)

(** The reduced verdicts of facet [i], outside and inside. *)
Definition w_out_result (Wr : list (Z * Z)) (i : nat) : Z :=
  fst (nth i Wr (0, 0)).
Definition w_in_result (Wr : list (Z * Z)) (i : nat) : Z :=
  snd (nth i Wr (0, 0)).


(** [g] holds the three indices of [f], in some order. *)
Definition permutation3 (f g : Face) : Prop :=
  g = (col0 f, col1 f, col2 f) \/ g = (col0 f, col2 f, col1 f) \/
  g = (col1 f, col0 f, col2 f) \/ g = (col1 f, col2 f, col0 f) \/
  g = (col2 f, col0 f, col1 f) \/ g = (col2 f, col1 f, col0 f).

(** No two facets of the list have the same unordered triple. *)
Definition distinct_simplices (F : list Face) : Prop :=
  forall a b, (a < b < length F)%nat ->
              same_simplex (row F a) (row F b) = false.


(** The contract of [remove_unreferenced] on facets within the bounds of
    the vertex matrix: the indices are renumbered by a map that is
    injective on the vertices in use and lands in the new vertex matrix;
    the facets keep their order. *)
Definition remove_unreferenced_spec {C : Type}
    (ru : Matrix C -> list Face -> result (Matrix C * list Face * list Z))
  : Prop :=
  forall V G VC FC IM,
    Forall (in_bounds (length V)) G ->
    ru V G = Ok (VC, FC, IM) ->
    exists r : Z -> Z,
      FC = map (map_face r) G /\
      (forall f a, In f G -> mentions f a ->
                   0 <= r a < Z.of_nat (length VC)) /\
      (forall f g a b, In f G -> In g G -> mentions f a -> mentions g b ->
                       r a = r b -> a = b).

(** Two states with the same outputs [VC] and [FC] and the same calls. *)
Definition same_but_J {C : Type} (s s' : State C) : Prop :=
  out_VC s = out_VC s' /\ out_FC s = out_FC s' /\ calls s = calls s'.

(** A procedure that neither reads nor assigns the output [J]. *)
Definition J_blind {C A : Type} (m : M C A) : Prop :=
  forall s s', same_but_J s s' ->
    fst (m s) = fst (m s') /\
    same_but_J (snd (m s)) (snd (m s')) /\
    out_J (snd (m s)) = out_J s.

(** [F2] is [F1] with some rows left out, the others in their order. *)
Fixpoint subsequenceb (F2 F1 : list Face) : bool :=
  match F2, F1 with
  | [], _ => true
  | _ :: _, [] => false
  | f :: F2', g :: F1' =>
      if face_eqb f g then subsequenceb F2' F1' else subsequenceb F2 F1'
  end.

(* ================================================================== *)
(** * Signed indices, tables and the effects of procedures *)
(* ================================================================== *)

(** Lines 243-245, the lambda [signed_index_to_index]: [abs(i) - 1],
    returned as a [size_t]. *)
Definition signed_index_to_index (i : Z) : nat :=
  to_size_t (to_int (Z.abs i - 1)).

(** Every row of the table has as many entries as the table has columns. *)
Definition well_formed_table (W : MatrixXi) : Prop :=
  Forall (fun r => Z.of_nat (length r) = cols W) (rows W).

(** A procedure that assigns none of the outputs [VC], [FC], [J]. *)
Definition quiet {C A : Type} (m : M C A) : Prop :=
  forall s,
    out_VC (snd (m s)) = out_VC s /\ out_FC (snd (m s)) = out_FC s /\
    out_J (snd (m s)) = out_J s.

(** A procedure that never assigns [J] and assigns [VC] and [FC] only when
    it succeeds. *)
Definition atomic {C A : Type} (m : M C A) : Prop :=
  forall s,
    out_J (snd (m s)) = out_J s /\
    (forall e, fst (m s) = Err e ->
               out_VC (snd (m s)) = out_VC s /\ out_FC (snd (m s)) = out_FC s).

(** A procedure whose calls of collaborators are the calls [l], in this
    order, all of them when it succeeds and the first of them up to the
    failing step when it fails. *)
Definition call_trace {C A : Type} (m : M C A) (l : list call) : Prop :=
  forall s, exists k,
    (k <= length l)%nat /\
    calls (snd (m s)) = calls s ++ firstn k l /\
    (forall a, fst (m s) = Ok a -> k = length l).

(** The collaborators a Boolean operation calls after its resolver. *)
Definition calls_after_resolver : list call :=
  [Call_propagate_winding_numbers; Call_unique_simplices;
   Call_remove_unreferenced].

(** The collaborators the default resolver calls. *)
Definition calls_of_igl_resolve : list call :=
  [Call_remesh_self_intersections; Call_remove_unreferenced].

(* ================================================================== *)
(** * Machine integers: values in range are not changed *)
(* ================================================================== *)

Lemma to_int_small (z : Z) : - 2 ^ 31 <= z < 2 ^ 31 -> to_int z = z.
Proof.
  intros Hz. unfold to_int, int_modulus.
  rewrite Z.mod_small; lia.
Qed.

Lemma signed_face_small (i : nat) (c : bool) :
  Z.of_nat i + 1 < 2 ^ 31 ->
  signed_face i c = (Z.of_nat i + 1) * (if c then 1 else -1).
Proof.
  intros Hi. unfold signed_face.
  rewrite (to_int_small (Z.of_nat i + 1)) by lia.
  apply to_int_small. destruct c; lia.
Qed.

Lemma to_size_t_small (z : Z) : 0 <= z < 2 ^ 64 -> to_size_t z = Z.to_nat z.
Proof.
  intros Hz. unfold to_size_t. now rewrite Z.mod_small.
Qed.

Lemma face_of_signed_small (i : nat) (s : Z) :
  Z.of_nat i + 1 < 2 ^ 31 -> (s = 1 \/ s = -1) ->
  face_of_signed ((Z.of_nat i + 1) * s) = i.
Proof.
  intros Hi Hs. unfold face_of_signed.
  assert (Habs : Z.abs ((Z.of_nat i + 1) * s) - 1 = Z.of_nat i)
    by (destruct Hs; subst s; lia).
  rewrite Habs, to_int_small by lia.
  rewrite to_size_t_small by lia.
  apply Nat2Z.id.
Qed.

Lemma face_of_signed_face (i : nat) (c : bool) :
  Z.of_nat i + 1 < 2 ^ 31 -> face_of_signed (signed_face i c) = i.
Proof.
  intros Hi. rewrite signed_face_small by assumption.
  apply face_of_signed_small; [assumption | destruct c; auto].
Qed.

Lemma signed_face_positive (i : nat) (c : bool) :
  Z.of_nat i + 1 < 2 ^ 31 -> (0 <? signed_face i c) = c.
Proof.
  intros Hi. rewrite signed_face_small by assumption.
  destruct c; [apply Z.ltb_lt | apply Z.ltb_ge]; lia.
Qed.

Lemma signed_face_negative (i : nat) (c : bool) :
  Z.of_nat i + 1 < 2 ^ 31 -> (signed_face i c <? 0) = negb c.
Proof.
  intros Hi. rewrite signed_face_small by assumption.
  destruct c; simpl; [apply Z.ltb_ge | apply Z.ltb_lt]; lia.
Qed.

Lemma index_to_signed_index_small (i : nat) (ori : bool) :
  Z.of_nat i + 1 < 2 ^ 31 ->
  index_to_signed_index i ori = (Z.of_nat i + 1) * (if ori then 1 else -1).
Proof.
  intros Hi. unfold index_to_signed_index.
  destruct ori.
  - rewrite (Z.mod_small ((Z.of_nat i + 1) * 1)) by lia.
    apply to_int_small; lia.
  - assert (H64 : ((Z.of_nat i + 1) * -1) mod 2 ^ 64
                  = 2 ^ 64 - (Z.of_nat i + 1))
      by (symmetry; apply Z.mod_unique with (q := -1); lia).
    rewrite H64. unfold to_int, int_modulus.
    replace (2 ^ 64 - (Z.of_nat i + 1) + 2 ^ 31)
      with ((2 ^ 31 - (Z.of_nat i + 1)) + 2 ^ 32 * 2 ^ 32) by lia.
    rewrite Z.add_mod, Z.mod_mul, Z.add_0_r, Z.mod_mod by lia.
    rewrite Z.mod_small; lia.
Qed.

(* ================================================================== *)
(** * Rows and their unordered triples *)
(* ================================================================== *)

Lemma face_eqb_eq (f g : Face) : face_eqb f g = true <-> f = g.
Proof.
  destruct f as [[a b] c], g as [[x y] z].
  unfold face_eqb, col0, col1, col2; simpl.
  rewrite !andb_true_iff, !Z.eqb_eq. split.
  - intros [[-> ->] ->]; reflexivity.
  - intros H; inversion H; auto.
Qed.

Lemma same_simplex_refl (f : Face) : same_simplex f f = true.
Proof. unfold same_simplex. now apply face_eqb_eq. Qed.

Lemma same_simplex_sym (f g : Face) : same_simplex f g = same_simplex g f.
Proof.
  unfold same_simplex.
  destruct (face_eqb (sort3 f) (sort3 g)) eqn:E1,
           (face_eqb (sort3 g) (sort3 f)) eqn:E2; try reflexivity.
  - apply face_eqb_eq in E1. rewrite E1, (proj2 (face_eqb_eq _ _)) in E2;
      [discriminate | reflexivity].
  - apply face_eqb_eq in E2. rewrite E2, (proj2 (face_eqb_eq _ _)) in E1;
      [discriminate | reflexivity].
Qed.

Lemma same_simplex_iff (f g : Face) :
  same_simplex f g = true <-> sort3 f = sort3 g.
Proof. unfold same_simplex. apply face_eqb_eq. Qed.

Lemma same_simplex_trans (f g h : Face) :
  same_simplex f g = true -> same_simplex g h = true ->
  same_simplex f h = true.
Proof. rewrite !same_simplex_iff. congruence. Qed.

(** Rows with the same unordered triple select the same rows. *)
Lemma same_simplex_ext (f g h : Face) :
  same_simplex f g = true -> same_simplex h f = same_simplex h g.
Proof.
  intros Hfg.
  destruct (same_simplex h f) eqn:E1, (same_simplex h g) eqn:E2;
    try reflexivity.
  - rewrite (same_simplex_trans _ _ _ E1 Hfg) in E2. discriminate.
  - rewrite same_simplex_sym in Hfg.
    rewrite (same_simplex_trans _ _ _ E2 Hfg) in E1. discriminate.
Qed.

(* ================================================================== *)
(** * Vectors updated in place; first positions *)
(* ================================================================== *)

Lemma update_at_length {A} (n : nat) (f : A -> A) (l : list A) :
  length (update_at n f l) = length l.
Proof.
  revert n; induction l as [|x l IH]; intros [|n]; simpl; auto.
Qed.

Lemma nth_update_at_same {A} (n : nat) (f : A -> A) (l : list A) (d : A) :
  (n < length l)%nat -> nth n (update_at n f l) d = f (nth n l d).
Proof.
  revert n; induction l as [|x l IH]; intros [|n] Hn; simpl in *;
    try lia; auto.
  apply IH; lia.
Qed.

Lemma nth_update_at_other {A} (n k : nat) (f : A -> A) (l : list A) (d : A) :
  k <> n -> nth k (update_at n f l) d = nth k l d.
Proof.
  revert n k; induction l as [|x l IH]; intros [|n] [|k] Hk; simpl;
    try congruence; auto.
Qed.

Lemma find_index_le {A} (p : A -> bool) (l : list A) :
  (find_index p l <= length l)%nat.
Proof.
  induction l as [|x l IH]; simpl; [lia|]. destruct (p x); lia.
Qed.

Lemma find_index_found {A} (p : A -> bool) (l : list A) (d : A) :
  (find_index p l < length l)%nat -> p (nth (find_index p l) l d) = true.
Proof.
  induction l as [|x l IH]; simpl; [lia|].
  destruct (p x) eqn:E; [auto | intros H; apply IH; lia].
Qed.

Lemma find_index_first {A} (p : A -> bool) (l : list A) (d : A) (k : nat) :
  (k < length l)%nat -> p (nth k l d) = true -> (find_index p l <= k)%nat.
Proof.
  revert k; induction l as [|x l IH]; intros k Hk Hp; simpl in *; [lia|].
  destruct (p x) eqn:E; [lia|].
  destruct k as [|k]; [congruence|].
  specialize (IH k ltac:(lia) Hp). lia.
Qed.

Lemma find_index_ext {A} (p q : A -> bool) (l : list A) :
  (forall x, p x = q x) -> find_index p l = find_index q l.
Proof.
  intros H; induction l as [|x l IH]; simpl; [reflexivity|].
  rewrite H, IH. reflexivity.
Qed.

(** In a list without repetition an element is first found where it is. *)
Lemma find_index_nth_NoDup (l : list nat) (u : nat) :
  NoDup l -> (u < length l)%nat ->
  find_index (Nat.eqb (nth u l 0%nat)) l = u.
Proof.
  intros Hnd Hu.
  assert (Hle : (find_index (Nat.eqb (nth u l 0%nat)) l <= u)%nat)
    by (apply find_index_first with (d := 0%nat);
        [assumption | apply Nat.eqb_refl]).
  assert (Hf := find_index_found (Nat.eqb (nth u l 0%nat)) l 0%nat
                  ltac:(lia)).
  apply Nat.eqb_eq in Hf.
  symmetry; apply (proj1 (NoDup_nth l 0%nat) Hnd); [lia | lia | exact Hf].
Qed.

Lemma nth_seq_map {B} (g : nat -> B) (n i : nat) (d : B) :
  (i < n)%nat -> nth i (map g (seq 0 n)) d = g i.
Proof.
  intros Hi. rewrite nth_indep with (d' := g 0%nat)
    by (rewrite length_map, length_seq; assumption).
  rewrite map_nth, seq_nth by assumption. reflexivity.
Qed.


(* ================================================================== *)
(** * The model of unique_simplices meets the contract *)
(* ================================================================== *)

Section FirstOccurrence.

Variable F : list Face.

Lemma first_occurrence_le (i : nat) :
  (i < length F)%nat -> (first_occurrence F i <= i)%nat.
Proof.
  intros Hi. unfold first_occurrence.
  apply find_index_first with (d := (0, 0, 0)); [assumption|].
  apply same_simplex_refl.
Qed.

Lemma first_occurrence_same (i : nat) :
  (i < length F)%nat ->
  same_simplex (row F i) (row F (first_occurrence F i)) = true.
Proof.
  intros Hi. unfold first_occurrence, row at 2.
  apply find_index_found.
  pose proof (first_occurrence_le i Hi) as H. unfold first_occurrence in H.
  lia.
Qed.

Lemma first_occurrence_eq (i j : nat) :
  same_simplex (row F i) (row F j) = true ->
  first_occurrence F i = first_occurrence F j.
Proof.
  intros H. unfold first_occurrence. apply find_index_ext. intros x.
  rewrite (same_simplex_sym (row F i)), (same_simplex_sym (row F j)).
  now apply same_simplex_ext.
Qed.

Lemma first_occurrence_idem (i : nat) :
  (i < length F)%nat ->
  first_occurrence F (first_occurrence F i) = first_occurrence F i.
Proof.
  intros Hi. apply first_occurrence_eq.
  rewrite same_simplex_sym. now apply first_occurrence_same.
Qed.

Lemma first_occurrence_inv (i j : nat) :
  (i < length F)%nat -> (j < length F)%nat ->
  first_occurrence F i = first_occurrence F j ->
  same_simplex (row F i) (row F j) = true.
Proof.
  intros Hi Hj E.
  apply same_simplex_trans with (g := row F (first_occurrence F i)).
  - now apply first_occurrence_same.
  - rewrite E, same_simplex_sym. now apply first_occurrence_same.
Qed.

Let ia : list nat :=
  filter (fun i => first_occurrence F i =? i)%nat (seq 0 (length F)).

Lemma in_first_occurrences (x : nat) :
  In x ia <-> (x < length F)%nat /\ first_occurrence F x = x.
Proof.
  unfold ia. rewrite filter_In, in_seq, Nat.eqb_eq. split.
  - intros [H1 H2]; split; [lia | assumption].
  - intros [H1 H2]; split; [lia | assumption].
Qed.

Lemma first_occurrences_NoDup : NoDup ia.
Proof. apply NoDup_filter, seq_NoDup. Qed.

Lemma group_number_lt (i : nat) :
  (i < length F)%nat ->
  (find_index (Nat.eqb (first_occurrence F i)) ia < length ia)%nat.
Proof.
  intros Hi.
  assert (Hin : In (first_occurrence F i) ia).
  { apply in_first_occurrences. split.
    - pose proof (first_occurrence_le i Hi). lia.
    - now apply first_occurrence_idem. }
  destruct (In_nth _ _ 0%nat Hin) as [k [Hk Ek]].
  pose proof (find_index_first (Nat.eqb (first_occurrence F i)) ia 0%nat k
                Hk) as H.
  rewrite Ek, Nat.eqb_refl in H. specialize (H eq_refl). lia.
Qed.

Lemma group_number_nth (i : nat) :
  (i < length F)%nat ->
  nth (find_index (Nat.eqb (first_occurrence F i)) ia) ia 0%nat
  = first_occurrence F i.
Proof.
  intros Hi. symmetry. apply Nat.eqb_eq.
  apply find_index_found. now apply group_number_lt.
Qed.

Theorem unique_simplices_first_spec :
  unique_simplices_spec F (unique_simplices_first F).
Proof.
  unfold unique_simplices_first. fold ia.
  constructor; simpl.
  - now rewrite length_map.
  - now rewrite length_map, length_seq.
  - intros i Hi. rewrite length_map, nth_seq_map by assumption.
    now apply group_number_lt.
  - intros i j Hi Hj. rewrite !nth_seq_map by assumption. split.
    + intros E. apply first_occurrence_inv; try assumption.
      rewrite <- (group_number_nth i Hi), <- (group_number_nth j Hj).
      now rewrite E.
    + intros E. now rewrite (first_occurrence_eq i j E).
  - intros u Hu. rewrite length_map in Hu.
    assert (Hin : In (nth u ia 0%nat) ia) by (now apply nth_In).
    apply in_first_occurrences in Hin. destruct Hin as [Hlt Hfix].
    split; [assumption | split].
    + rewrite nth_seq_map by assumption. rewrite Hfix.
      apply find_index_nth_NoDup; [apply first_occurrences_NoDup | assumption].
    + unfold row at 1.
      rewrite nth_indep with (d' := row F 0%nat)
        by (rewrite length_map; assumption).
      now rewrite map_nth.
Qed.

End FirstOccurrence.
(* ================================================================== *)
(** * The first loop: what the tally holds *)
(* ================================================================== *)

Lemma group_members_S (S : Simplices) (u k : nat) :
  group_members S u (Datatypes.S k) =
  group_members S u k ++ (if (nth k (IC S) 0 =? u)%nat then [k] else []).
Proof.
  unfold group_members. rewrite seq_S, filter_app. reflexivity.
Qed.

Lemma group_members_lt (S : Simplices) (u n j : nat) :
  In j (group_members S u n) -> (j < n)%nat /\ nth j (IC S) 0%nat = u.
Proof.
  unfold group_members. rewrite filter_In, in_seq, Nat.eqb_eq. lia.
Qed.

Lemma group_members_length (S : Simplices) (u n : nat) :
  (length (group_members S u n) <= n)%nat.
Proof.
  unfold group_members.
  pose proof (filter_length_le (fun j => (nth j (IC S) 0 =? u)%nat) (seq 0 n)).
  now rewrite length_seq in H.
Qed.

Lemma nth_repeat_lt {A} (a d : A) (m u : nat) :
  nth u (repeat a m) d = a \/ nth u (repeat a m) d = d.
Proof.
  revert u; induction m as [|m IH]; intros [|u]; simpl; auto.
Qed.

Section TallySpec.

Variables (F1 : list Face) (S : Simplices).
Hypothesis Hsize : Z.of_nat (length F1) < 2 ^ 31.
Hypothesis Hbound : forall i, (i < length F1)%nat ->
    (nth i (IC S) 0 < length (uF S))%nat.

Lemma tally_holds_init : tally_holds F1 S 0 (tally_init (length (uF S))).
Proof.
  unfold tally_holds, tally_init; simpl. rewrite !repeat_length.
  repeat split; try reflexivity.
  - destruct (nth_repeat_lt (@nil Z) [] (length (uF S)) u); assumption.
  - destruct (nth_repeat_lt 0 0 (length (uF S)) u); assumption.
  - destruct (nth_repeat_lt 0 0 (length (uF S)) u); assumption.
Qed.

Lemma tally_holds_step (k : nat) (t : Tally) :
  (k < length F1)%nat -> tally_holds F1 S k t ->
  tally_holds F1 S (Datatypes.S k) (tally_face F1 S t k).
Proof.
  intros Hk (L1 & L2 & L3 & H).
  pose proof (Hbound k Hk) as Hui.
  unfold tally_holds, tally_face; simpl.
  rewrite !update_at_length. repeat split; try assumption.
  - (* uF2F *)
    rewrite group_members_S.
    destruct (Nat.eqb_spec (nth k (IC S) 0%nat) u) as [E|E].
    + subst u. rewrite nth_update_at_same by lia.
      rewrite map_app; simpl. destruct (H _ H0) as (-> & _). reflexivity.
    + rewrite nth_update_at_other by congruence.
      rewrite app_nil_r. now destruct (H _ H0).
  - (* counts *)
    rewrite group_members_S.
    destruct (Nat.eqb_spec (nth k (IC S) 0%nat) u) as [E|E].
    + subst u. rewrite nth_update_at_same by lia.
      destruct (H _ H0) as (_ & -> & _).
      rewrite !filter_app, !length_app; simpl.
      pose proof (group_members_length S (nth k (IC S) 0%nat) k) as Hlen.
      pose proof (filter_length (orientation F1 S)
                    (group_members S (nth k (IC S) 0%nat) k)) as Hsum.
      change (consistent (row F1 k) (row (uF S) (nth k (IC S) 0%nat)))
        with (orientation F1 S k).
      destruct (orientation F1 S k); simpl; rewrite to_int_small; lia.
    + rewrite nth_update_at_other by congruence.
      rewrite app_nil_r. now destruct (H _ H0) as (_ & ? & _).
  - (* ucounts *)
    rewrite group_members_S.
    destruct (Nat.eqb_spec (nth k (IC S) 0%nat) u) as [E|E].
    + subst u. rewrite nth_update_at_same by lia.
      destruct (H _ H0) as (_ & _ & ->).
      rewrite length_app; simpl.
      pose proof (group_members_length S (nth k (IC S) 0%nat) k) as Hlen.
      rewrite to_int_small; lia.
    + rewrite nth_update_at_other by congruence.
      rewrite app_nil_r. now destruct (H _ H0) as (_ & _ & ?).
Qed.

Lemma tally_holds_prefix (k : nat) :
  (k <= length F1)%nat ->
  tally_holds F1 S k
    (fold_left (tally_face F1 S) (seq 0 k) (tally_init (length (uF S)))).
Proof.
  induction k as [|k IH]; intros Hk.
  - apply tally_holds_init.
  - rewrite seq_S, fold_left_app; simpl.
    apply tally_holds_step; [lia | apply IH; lia].
Qed.

Lemma tally_spec : tally_holds F1 S (length F1) (tally F1 S).
Proof. apply tally_holds_prefix. lia. Qed.

End TallySpec.
(* ================================================================== *)
(** * The second loop: one decision for every unique face *)
(* ================================================================== *)

Lemma find_positive_signed (o : nat -> bool) (l : list nat) :
  Forall (fun j => Z.of_nat j + 1 < 2 ^ 31) l ->
  find (fun fid => 0 <? fid) (map (fun j => signed_face j (o j)) l) =
  option_map (fun j => signed_face j (o j)) (hd_error (filter o l)).
Proof.
  induction 1 as [|j l Hj Hl IH]; simpl; [reflexivity|].
  rewrite signed_face_positive by assumption.
  destruct (o j) eqn:E; simpl; [now rewrite E | exact IH].
Qed.

Lemma find_negative_signed (o : nat -> bool) (l : list nat) :
  Forall (fun j => Z.of_nat j + 1 < 2 ^ 31) l ->
  find (fun fid => fid <? 0) (map (fun j => signed_face j (o j)) l) =
  option_map (fun j => signed_face j (o j))
             (hd_error (filter (fun j => negb (o j)) l)).
Proof.
  induction 1 as [|j l Hj Hl IH]; simpl; [reflexivity|].
  rewrite signed_face_negative by assumption.
  destruct (o j) eqn:E; simpl; [exact IH | now rewrite E].
Qed.

Lemma filter_all {A} (f : A -> bool) (l : list A) :
  length (filter f l) = length l -> filter f l = l.
Proof.
  induction l as [|x l IH]; simpl; [reflexivity|].
  destruct (f x); simpl; intros H.
  - f_equal. apply IH. lia.
  - pose proof (filter_length_le f l). lia.
Qed.

Lemma group_members_small (F1 : list Face) (S : Simplices) (u : nat) :
  Z.of_nat (length F1) < 2 ^ 31 ->
  Forall (fun j => Z.of_nat j + 1 < 2 ^ 31) (group_members S u (length F1)).
Proof.
  intros Hsize. apply Forall_forall. intros j Hj.
  apply group_members_lt in Hj. lia.
Qed.

(** The source's second loop takes, for every unique face, the decision of
    the specification. *)
Lemma resolve_group_decision (F1 : list Face) (S : Simplices) (t : Tally)
    (u : nat) :
  Z.of_nat (length F1) < 2 ^ 31 ->
  tally_holds F1 S (length F1) t ->
  (u < length (uF S))%nat ->
  resolve_group t u = decide_group F1 S u.
Proof.
  intros Hsize (_ & _ & _ & H) Hu.
  destruct (H u Hu) as (E1 & E2 & E3). clear H.
  unfold resolve_group, decide_group, group_decision.
  rewrite E1, E2, E3.
  pose proof (group_members_small F1 S u Hsize) as Hsmall.
  set (mem := group_members S u (length F1)) in *.
  set (o := orientation F1 S) in *.
  pose proof (filter_length o mem) as Hsum.
  destruct (Nat.eqb_spec (length mem) 1) as [L|L].
  - replace (Z.of_nat (length mem) =? 1) with true
      by (symmetry; apply Z.eqb_eq; lia).
    destruct mem as [|j [|? ?]]; simpl in L; try lia. simpl.
    inversion Hsmall; subst.
    now rewrite face_of_signed_face.
  - replace (Z.of_nat (length mem) =? 1) with false
      by (symmetry; apply Z.eqb_neq; lia).
    destruct (Z.eqb_spec (Z.of_nat (length (filter o mem)) -
              Z.of_nat (length (filter (fun j => negb (o j)) mem))) 1)
      as [C1|C1].
    + rewrite find_positive_signed by assumption.
      destruct (filter o mem) as [|c rest] eqn:Ec; simpl in *; [lia|].
      rewrite face_of_signed_face; [reflexivity|].
      assert (Hin : In c mem)
        by (apply (proj1 (filter_In o c mem)); rewrite Ec; now left).
      apply (proj1 (Forall_forall _ _) Hsmall c Hin).
    + destruct (Z.eqb_spec (Z.of_nat (length (filter o mem)) -
                Z.of_nat (length (filter (fun j => negb (o j)) mem))) (-1))
        as [C2|C2].
      * rewrite find_negative_signed by assumption.
        destruct (filter (fun j => negb (o j)) mem) as [|c rest] eqn:Ec;
          simpl in *; [lia|].
        rewrite face_of_signed_face; [reflexivity|].
        assert (Hin : In c mem)
          by (apply (proj1 (filter_In (fun j => negb (o j)) c mem));
              rewrite Ec; now left).
        apply (proj1 (Forall_forall _ _) Hsmall c Hin).
      * unfold rassert.
        destruct (Z.eqb_spec (Z.of_nat (length (filter o mem)) -
                  Z.of_nat (length (filter (fun j => negb (o j)) mem))) 0);
          reflexivity.
Qed.

Lemma firstn_1_incl {A} (l : list A) : incl (firstn 1 l) l.
Proof.
  destruct l as [|x l]; simpl; intros y Hy; [destruct Hy|].
  destruct Hy as [<-|[]]. now left.
Qed.

(** What a decision keeps belongs to the group. *)
Lemma group_decision_subset (mem cons rev p : list nat) :
  incl cons mem -> incl rev mem ->
  group_decision mem cons rev = Ok p -> incl p mem.
Proof.
  intros Hc Hr. unfold group_decision.
  destruct (length mem =? 1)%nat; [intros [= <-]; apply incl_refl|].
  destruct (_ =? 1).
  { intros [= <-]. intros x Hx. apply Hc. now apply firstn_1_incl. }
  destruct (_ =? -1).
  { intros [= <-]. intros x Hx. apply Hr. now apply firstn_1_incl. }
  destruct (_ =? 0); [intros [= <-]; intros x []| discriminate].
Qed.

Lemma decide_group_subset (F1 : list Face) (S : Simplices) (u : nat)
    (p : list nat) :
  decide_group F1 S u = Ok p -> incl p (group_members S u (length F1)).
Proof.
  apply group_decision_subset; apply incl_filter.
Qed.

Lemma pushed_Ok (t : Tally) (u : nat) (p : list nat) :
  resolve_group t u = Ok p -> pushed t u = p.
Proof. unfold pushed. now intros ->. Qed.

Lemma push_groups_Ok (t : Tally) (groups acc kept : list nat) :
  push_groups t groups acc = Ok kept ->
  Forall (fun u => resolve_group t u = Ok (pushed t u)) groups /\
  kept = acc ++ concat (map (pushed t) groups).
Proof.
  revert acc kept; induction groups as [|u groups IH]; intros acc kept; simpl.
  - intros [= <-]. split; [constructor | now rewrite app_nil_r].
  - destruct (resolve_group t u) as [p|e] eqn:E; simpl; [|discriminate].
    intros H. destruct (IH _ _ H) as [HF ->].
    split.
    + constructor; [now rewrite (pushed_Ok t u p E) | assumption].
    + now rewrite (pushed_Ok t u p E), app_assoc.
Qed.

Lemma push_groups_total (t : Tally) (groups acc : list nat) :
  Forall (fun u => exists p, resolve_group t u = Ok p) groups ->
  push_groups t groups acc = Ok (acc ++ concat (map (pushed t) groups)).
Proof.
  intros H; revert acc; induction H as [|u groups [p Hp] Hrest IH];
    intros acc; simpl.
  - now rewrite app_nil_r.
  - rewrite (pushed_Ok t u p Hp), Hp; simpl. rewrite IH.
    now rewrite app_assoc.
Qed.

Lemma push_groups_Err (t : Tally) (groups acc : list nat) (e0 : error) :
  Exists (fun u => resolve_group t u = Err e0) groups ->
  Forall (fun u => forall e, resolve_group t u = Err e -> e = e0) groups ->
  push_groups t groups acc = Err e0.
Proof.
  intros Hex; revert acc; induction Hex as [u groups Hu|u groups Hex IH];
    intros acc Hall; simpl.
  - now rewrite Hu.
  - inversion Hall as [|? ? Hhd Htl]; subst.
    destruct (resolve_group t u) as [p|e] eqn:E; simpl.
    + now apply IH.
    + now rewrite (Hhd e eq_refl).
Qed.

Lemma filter_concat_none {A} (P : A -> bool) (g : nat -> list A)
    (us : list nat) :
  (forall u k, In u us -> In k (g u) -> P k = false) ->
  filter P (concat (map g us)) = [].
Proof.
  induction us as [|u us IH]; intros H; simpl; [reflexivity|].
  rewrite filter_app, IH by (intros; eapply H; [right|]; eauto).
  rewrite app_nil_r.
  assert (Hhd : forall k, In k (g u) -> P k = false)
    by (intros; eapply H; [left|]; eauto).
  clear -Hhd. induction (g u) as [|k l IHl]; simpl; [reflexivity|].
  rewrite Hhd by now left. apply IHl. intros; apply Hhd; now right.
Qed.

(** Of the faces pushed group after group, a test that recognizes the
    members of group [u0] selects what was pushed for [u0]. *)
Lemma filter_concat_group {A} (P : A -> bool) (g : nat -> list A)
    (us : list nat) (u0 : nat) :
  NoDup us -> In u0 us ->
  (forall u k, In u us -> In k (g u) -> P k = (u =? u0)%nat) ->
  filter P (concat (map g us)) = g u0.
Proof.
  induction us as [|u us IH]; intros Hnd Hin H; simpl; [destruct Hin|].
  inversion Hnd as [|? ? Hnotin Hnd']; subst.
  rewrite filter_app.
  destruct (Nat.eq_dec u u0) as [->|Hne].
  - rewrite filter_concat_none.
    + rewrite app_nil_r.
      assert (Hhd : forall k, In k (g u0) -> P k = true)
        by (intros k Hk; rewrite (H u0 k); [apply Nat.eqb_refl | now left
                                           | assumption]).
      clear -Hhd. induction (g u0) as [|k l IHl]; simpl; [reflexivity|].
      rewrite Hhd by now left. f_equal. apply IHl.
      intros; apply Hhd; now right.
    + intros u k Hu Hk. rewrite (H u k); [|now right|assumption].
      apply Nat.eqb_neq. intros ->. contradiction.
  - destruct Hin as [->|Hin]; [contradiction|].
    rewrite IH; try assumption.
    + assert (Hhd : forall k, In k (g u) -> P k = false)
        by (intros k Hk; rewrite (H u k); [now apply Nat.eqb_neq | now left
                                          | assumption]).
      assert (E : filter P (g u) = []).
      { clear -Hhd. induction (g u) as [|k l IHl]; simpl; [reflexivity|].
        rewrite Hhd by now left. apply IHl.
        intros; apply Hhd; now right. }
      now rewrite E.
    + intros u' k Hu' Hk. apply H; [now right | assumption].
Qed.
(* ================================================================== *)
(** * resolve_duplicated_faces under the contract of unique_simplices *)
(* ================================================================== *)

Lemma consistent_refl (f : Face) : consistent f f = true.
Proof.
  unfold consistent. rewrite !Z.eqb_refl. reflexivity.
Qed.

Lemma consistent_sym (f g : Face) : consistent f g = consistent g f.
Proof.
  destruct f as [[a b] c], g as [[x y] z].
  unfold consistent, col0, col1, col2; simpl.
  rewrite (Z.eqb_sym x a), (Z.eqb_sym y b), (Z.eqb_sym z c),
          (Z.eqb_sym x b), (Z.eqb_sym y c), (Z.eqb_sym z a),
          (Z.eqb_sym x c), (Z.eqb_sym y a), (Z.eqb_sym z b).
  destruct (a =? x), (b =? y), (c =? z), (a =? y), (b =? z), (c =? x),
           (a =? z), (b =? x), (c =? y); reflexivity.
Qed.

Lemma group_decision_length (mem cons rev p : list nat) :
  group_decision mem cons rev = Ok p -> (length p <= 1)%nat.
Proof.
  unfold group_decision.
  destruct (Nat.eqb_spec (length mem) 1); [intros [= <-]; lia|].
  destruct (_ =? 1); [intros [= <-]; apply (firstn_le_length 1)|].
  destruct (_ =? -1); [intros [= <-]; apply (firstn_le_length 1)|].
  destruct (_ =? 0); [intros [= <-]; simpl; lia | discriminate].
Qed.

Lemma group_decision_Err (mem cons rev : list nat) (e : error) :
  group_decision mem cons rev = Err e ->
  e = AssertionFailed "counts[i] == 0".
Proof.
  unfold group_decision.
  destruct (length mem =? 1)%nat; [discriminate|].
  destruct (_ =? 1); [discriminate|].
  destruct (_ =? -1); [discriminate|].
  destruct (_ =? 0); [discriminate|]. now intros [= <-].
Qed.

(** Faces pushed group after group are listed by increasing group. *)
Lemma concat_groups_sorted (key : nat -> nat) (g : nat -> list nat)
    (a len : nat) :
  (forall u k, In k (g u) -> key k = u) ->
  (forall u, (a <= u < a + len)%nat -> (length (g u) <= 1)%nat) ->
  StronglySorted lt (map key (concat (map g (seq a len)))) /\
  Forall (fun x => (a <= x)%nat) (map key (concat (map g (seq a len)))).
Proof.
  intros Hkey. revert a; induction len as [|len IH]; intros a Hlen; simpl.
  - split; constructor.
  - destruct (IH (S a)) as [Hs Hf]; [intros; apply Hlen; lia|].
    assert (Hf' : Forall (fun x => (a < x)%nat)
                    (map key (concat (map g (seq (S a) len)))))
      by (eapply Forall_impl; [|exact Hf]; simpl; intros; lia).
    rewrite map_app.
    pose proof (Hlen a ltac:(lia)) as La.
    pose proof (Hkey a) as Ka.
    destruct (g a) as [|k [|? ?]]; simpl in *; try lia.
    + split; [assumption|].
      eapply Forall_impl; [|exact Hf]; simpl; intros; lia.
    + rewrite (Ka k) by now left. split.
      * constructor; assumption.
      * constructor; [lia|].
        eapply Forall_impl; [|exact Hf]; simpl; intros; lia.
Qed.

Section DuplicateResolver.

Variable us : list Face -> Simplices.
Variable F1 : list Face.
Hypothesis Hsize : Z.of_nat (length F1) < 2 ^ 31.
Hypothesis Hspec : unique_simplices_spec F1 (us F1).

Lemma kept_faces_of_loop :
  kept_faces_of us F1 =
  push_groups (tally F1 (us F1)) (seq 0 (length (uF (us F1)))) [].
Proof.
  unfold kept_faces_of.
  rewrite (us_IA_length _ _ Hspec), Nat.eqb_refl. reflexivity.
Qed.

Lemma tally_of_contract :
  tally_holds F1 (us F1) (length F1) (tally F1 (us F1)).
Proof.
  apply tally_spec; [assumption | apply (us_IC_bound _ _ Hspec)].
Qed.

Lemma resolve_group_contract (u : nat) :
  (u < length (uF (us F1)))%nat ->
  resolve_group (tally F1 (us F1)) u = decide_group F1 (us F1) u.
Proof.
  intros Hu. apply resolve_group_decision;
    [assumption | apply tally_of_contract | assumption].
Qed.

(** The group of a facet by its unordered triple is a group of [IC]. *)
Lemma facet_group_members (i : nat) :
  (i < length F1)%nat ->
  facet_group F1 (row F1 i) =
  group_members (us F1) (nth i (IC (us F1)) 0%nat) (length F1).
Proof.
  intros Hi. unfold facet_group, group_members.
  apply filter_ext_in. intros j Hj. apply in_seq in Hj.
  pose proof (us_IC_group _ _ Hspec j i ltac:(lia) Hi) as [H1 H2].
  destruct (Nat.eqb_spec (nth j (IC (us F1)) 0%nat)
                         (nth i (IC (us F1)) 0%nat)) as [E|E].
  - auto.
  - destruct (same_simplex (row F1 j) (row F1 i)); [|reflexivity].
    exfalso; auto.
Qed.

Lemma consistent_occurrences_members (i : nat) :
  (i < length F1)%nat ->
  consistent_occurrences F1 (row F1 i) (representative (us F1) i) =
  filter (orientation F1 (us F1))
         (group_members (us F1) (nth i (IC (us F1)) 0%nat) (length F1)).
Proof.
  intros Hi. unfold consistent_occurrences.
  rewrite facet_group_members by assumption.
  apply filter_ext_in. intros j Hj. apply group_members_lt in Hj.
  unfold orientation, representative. now rewrite (proj2 Hj).
Qed.

Lemma reversed_occurrences_members (i : nat) :
  (i < length F1)%nat ->
  reversed_occurrences F1 (row F1 i) (representative (us F1) i) =
  filter (fun j => negb (orientation F1 (us F1) j))
         (group_members (us F1) (nth i (IC (us F1)) 0%nat) (length F1)).
Proof.
  intros Hi. unfold reversed_occurrences.
  rewrite facet_group_members by assumption.
  apply filter_ext_in. intros j Hj. apply group_members_lt in Hj.
  unfold orientation, representative. now rewrite (proj2 Hj).
Qed.

(** The decision for the group of facet [i], on the notions of the
    specification. *)
Lemma decide_group_of_facet (i : nat) :
  (i < length F1)%nat ->
  decide_group F1 (us F1) (nth i (IC (us F1)) 0%nat) =
  group_decision
    (facet_group F1 (row F1 i))
    (consistent_occurrences F1 (row F1 i) (representative (us F1) i))
    (reversed_occurrences F1 (row F1 i) (representative (us F1) i)).
Proof.
  intros Hi. unfold decide_group.
  now rewrite facet_group_members, consistent_occurrences_members,
    reversed_occurrences_members.
Qed.

Lemma pushed_in_group (u k : nat) :
  (u < length (uF (us F1)))%nat ->
  In k (pushed (tally F1 (us F1)) u) ->
  (k < length F1)%nat /\ nth k (IC (us F1)) 0%nat = u.
Proof.
  intros Hu Hk. unfold pushed in Hk.
  rewrite resolve_group_contract in Hk by assumption.
  destruct (decide_group F1 (us F1) u) as [p|e] eqn:E; [|destruct Hk].
  apply decide_group_subset in E. now apply group_members_lt, E.
Qed.

(** When the second loop ends, the kept faces of the group of facet [i]
    are those the decision of its group names. *)
Lemma kept_faces_of_group (kept : list nat) (i : nat) :
  kept_faces_of us F1 = Ok kept -> (i < length F1)%nat ->
  group_decision
    (facet_group F1 (row F1 i))
    (consistent_occurrences F1 (row F1 i) (representative (us F1) i))
    (reversed_occurrences F1 (row F1 i) (representative (us F1) i))
  = Ok (survivors F1 kept (row F1 i)).
Proof.
  intros Hk Hi. rewrite kept_faces_of_loop in Hk.
  apply push_groups_Ok in Hk. destruct Hk as [Hall ->]. simpl.
  pose proof (us_IC_bound _ _ Hspec i Hi) as Hu.
  rewrite <- decide_group_of_facet, <- resolve_group_contract
    by assumption.
  rewrite Forall_forall in Hall.
  rewrite (Hall (nth i (IC (us F1)) 0%nat))
    by (apply in_seq; lia).
  f_equal. symmetry. unfold survivors.
  apply filter_concat_group.
  - apply seq_NoDup.
  - apply in_seq; lia.
  - intros u k Hin Hpk. apply in_seq in Hin.
    destruct (pushed_in_group u k ltac:(lia) Hpk) as [Hlt Hic].
    pose proof (us_IC_group _ _ Hspec k i Hlt Hi) as [H1 H2].
    rewrite Hic in H1, H2.
    destruct (Nat.eqb_spec u (nth i (IC (us F1)) 0%nat)) as [E|E].
    + auto.
    + destruct (same_simplex (row F1 k) (row F1 i)); [|reflexivity].
      exfalso; auto.
Qed.

Lemma kept_faces_sorted (kept : list nat) :
  kept_faces_of us F1 = Ok kept ->
  Forall (fun k => (k < length F1)%nat) kept /\
  StronglySorted lt (map (fun k => nth k (IC (us F1)) 0%nat) kept).
Proof.
  intros Hk. rewrite kept_faces_of_loop in Hk.
  apply push_groups_Ok in Hk. destruct Hk as [Hall ->]. simpl.
  rewrite Forall_forall in Hall.
  set (g := fun u => if (u <? length (uF (us F1)))%nat
                     then pushed (tally F1 (us F1)) u else []).
  assert (Eg : map (pushed (tally F1 (us F1)))
                   (seq 0 (length (uF (us F1)))) =
               map g (seq 0 (length (uF (us F1))))).
  { apply map_ext_in. intros u Hu. apply in_seq in Hu. unfold g.
    destruct (Nat.ltb_spec u (length (uF (us F1)))); [reflexivity | lia]. }
  rewrite Eg. split.
  - apply Forall_forall. intros k Hkin. apply in_concat in Hkin.
    destruct Hkin as (l & Hl & Hkl). apply in_map_iff in Hl.
    destruct Hl as (u & <- & Hu). apply in_seq in Hu. unfold g in Hkl.
    destruct (Nat.ltb_spec u (length (uF (us F1)))); [|destruct Hkl].
    now apply (pushed_in_group u k).
  - apply concat_groups_sorted.
    + intros u k. unfold g.
      destruct (Nat.ltb_spec u (length (uF (us F1)))); [|intros []].
      intros Hkin. now apply (pushed_in_group u k).
    + intros u Hu. unfold g.
      destruct (Nat.ltb_spec u (length (uF (us F1)))); [|simpl; lia].
      pose proof (Hall u ltac:(apply in_seq; lia)) as Hp.
      rewrite resolve_group_contract in Hp by assumption.
      unfold decide_group in Hp. now apply group_decision_length in Hp.
Qed.

(** The second loop ends when no group violates the invariant on the
    signed count. *)
Lemma kept_faces_of_returns :
  (forall i, (i < length F1)%nat ->
     (1 < length (facet_group F1 (row F1 i)))%nat ->
     -1 <= signed_count F1 (row F1 i) (representative (us F1) i) <= 1) ->
  exists kept, kept_faces_of us F1 = Ok kept.
Proof.
  intros Hinv. rewrite kept_faces_of_loop.
  eexists. apply push_groups_total. apply Forall_forall.
  intros u Hu. apply in_seq in Hu.
  destruct (us_representative _ _ Hspec u ltac:(lia)) as (Ha & Hic & _).
  set (a := nth u (IA (us F1)) 0%nat) in *.
  rewrite resolve_group_contract by lia.
  rewrite <- Hic, decide_group_of_facet by assumption.
  specialize (Hinv a Ha). unfold signed_count in Hinv.
  unfold group_decision.
  assert (Hin : In a (facet_group F1 (row F1 a))).
  { unfold facet_group. apply filter_In.
    split; [apply in_seq; lia | apply same_simplex_refl]. }
  destruct (Nat.eqb_spec (length (facet_group F1 (row F1 a))) 1) as [L|L];
    [eexists; reflexivity|].
  assert (Hocc : (1 < length (facet_group F1 (row F1 a)))%nat)
    by (destruct (facet_group F1 (row F1 a)); simpl in *; [tauto | lia]).
  specialize (Hinv Hocc).
  destruct (Z.eqb_spec
    (Z.of_nat (length (consistent_occurrences F1 (row F1 a)
                         (representative (us F1) a))) -
     Z.of_nat (length (reversed_occurrences F1 (row F1 a)
                         (representative (us F1) a)))) 1);
    [eexists; reflexivity|].
  destruct (Z.eqb_spec
    (Z.of_nat (length (consistent_occurrences F1 (row F1 a)
                         (representative (us F1) a))) -
     Z.of_nat (length (reversed_occurrences F1 (row F1 a)
                         (representative (us F1) a)))) (-1));
    [eexists; reflexivity|].
  destruct (Z.eqb_spec
    (Z.of_nat (length (consistent_occurrences F1 (row F1 a)
                         (representative (us F1) a))) -
     Z.of_nat (length (reversed_occurrences F1 (row F1 a)
                         (representative (us F1) a)))) 0);
    [eexists; reflexivity | lia].
Qed.

Lemma resolve_duplicated_faces_Ok (J1 : list Z) (F2 : list Face)
    (J2 : list Z) :
  resolve_duplicated_faces us F1 J1 = Ok (F2, J2) ->
  exists kept, kept_faces_of us F1 = Ok kept /\
               F2 = map (fun k => row F1 k) kept /\
               J2 = map (fun k => nth k J1 0) kept.
Proof.
  unfold resolve_duplicated_faces.
  destruct (kept_faces_of us F1) as [kept|e]; simpl; [|discriminate].
  intros [= <- <-]. now exists kept.
Qed.

End DuplicateResolver.
Section DuplicateResolverErrors.

Variable us : list Face -> Simplices.
Variable F1 : list Face.
Hypothesis Hsize : Z.of_nat (length F1) < 2 ^ 31.
Hypothesis Hspec : unique_simplices_spec F1 (us F1).

(** A group whose decision is an error makes the whole call fail, with
    the assertion on the signed count. *)
Lemma resolve_duplicated_faces_Err (J1 : list Z) (i : nat) (e : error) :
  (i < length F1)%nat ->
  group_decision
    (facet_group F1 (row F1 i))
    (consistent_occurrences F1 (row F1 i) (representative (us F1) i))
    (reversed_occurrences F1 (row F1 i) (representative (us F1) i))
  = Err e ->
  resolve_duplicated_faces us F1 J1 =
  Err (AssertionFailed "counts[i] == 0").
Proof.
  intros Hi He. unfold resolve_duplicated_faces.
  rewrite (kept_faces_of_loop us F1 Hspec).
  rewrite (push_groups_Err _ _ _ (AssertionFailed "counts[i] == 0"));
    [reflexivity | |].
  - apply Exists_exists. exists (nth i (IC (us F1)) 0%nat).
    pose proof (us_IC_bound _ _ Hspec i Hi) as Hu. split.
    + apply in_seq; lia.
    + rewrite (resolve_group_contract us F1 Hsize Hspec) by assumption.
      rewrite (decide_group_of_facet us F1 Hspec) by assumption.
      rewrite He. f_equal. now apply group_decision_Err in He.
  - apply Forall_forall. intros u Hu e' He'. apply in_seq in Hu.
    rewrite (resolve_group_contract us F1 Hsize Hspec) in He' by lia.
    unfold decide_group in He'. now apply group_decision_Err in He'.
Qed.

(** The representative of the group of facet [i] is a row of the group. *)
Lemma representative_in_group (i : nat) :
  (i < length F1)%nat ->
  exists a, In a (facet_group F1 (row F1 i)) /\
            representative (us F1) i = row F1 a.
Proof.
  intros Hi.
  pose proof (us_IC_bound _ _ Hspec i Hi) as Hu.
  destruct (us_representative _ _ Hspec _ Hu) as (Ha & Hic & Hrow).
  exists (nth (nth i (IC (us F1)) 0%nat) (IA (us F1)) 0%nat). split.
  - unfold facet_group. apply filter_In. split; [apply in_seq; lia|].
    now apply (us_IC_group _ _ Hspec).
  - exact Hrow.
Qed.

End DuplicateResolverErrors.

Lemma occurrences_length (F1 : list Face) (f rep : Face) :
  (length (consistent_occurrences F1 f rep) +
   length (reversed_occurrences F1 f rep))%nat = length (facet_group F1 f).
Proof. apply filter_length. Qed.

(* ================================================================== *)
(** * The DuplicateResolver: the claims *)
(* ================================================================== *)

(** C1. For every facet list and provenance list given to
    [resolve_duplicated_faces], the call returns when no group with more
    than one occurrence has a signed count other than -1, 0 and +1, and
    whenever it returns every group of facets with the same unordered vertex
    triple is resolved by its occurrence count and its signed count (the
    occurrences with the orientation of the group's representative minus the
    others): a group with one occurrence keeps that facet; with signed count
    +1 the first consistent occurrence and nothing else of the group is
    kept; with signed count -1 the first reversed occurrence and nothing
    else; with signed count 0 nothing of the group is kept. *)
Theorem duplicate_groups_resolved
    (us : list Face -> Simplices) (F1 : list Face) (J1 : list Z) :
  Z.of_nat (length F1) < 2 ^ 31 ->
  unique_simplices_spec F1 (us F1) ->
  ((forall i, (i < length F1)%nat ->
      (1 < length (facet_group F1 (row F1 i)))%nat ->
      -1 <= signed_count F1 (row F1 i) (representative (us F1) i) <= 1) ->
   exists F2 J2, resolve_duplicated_faces us F1 J1 = Ok (F2, J2)) /\
  (forall F2 J2,
     resolve_duplicated_faces us F1 J1 = Ok (F2, J2) ->
     exists kept,
       kept_faces_of us F1 = Ok kept /\
       F2 = map (fun k => row F1 k) kept /\
       J2 = map (fun k => nth k J1 0) kept /\
       forall i, (i < length F1)%nat ->
         let f := row F1 i in
         let rep := representative (us F1) i in
         (length (facet_group F1 f) = 1%nat ->
          survivors F1 kept f = facet_group F1 f) /\
         (signed_count F1 f rep = 1 ->
          exists c rest, consistent_occurrences F1 f rep = c :: rest /\
                         survivors F1 kept f = [c]) /\
         (signed_count F1 f rep = -1 ->
          exists r rest, reversed_occurrences F1 f rep = r :: rest /\
                         survivors F1 kept f = [r]) /\
         (signed_count F1 f rep = 0 -> survivors F1 kept f = [])).
Proof.
  intros Hsize Hspec. split.
  { intros Hinv.
    destruct (kept_faces_of_returns us F1 Hsize Hspec Hinv) as (kept & Hk).
    unfold resolve_duplicated_faces. rewrite Hk. simpl. eauto. }
  intros F2 J2 Hres.
  destruct (resolve_duplicated_faces_Ok us F1 J1 F2 J2 Hres)
    as (kept & Hkept & HF2 & HJ2).
  exists kept. repeat split; try assumption.
  all: pose proof (kept_faces_of_group us F1 Hsize Hspec kept i Hkept H)
         as Hdec.
  all: unfold signed_count in *; unfold group_decision in Hdec.
  all: pose proof (occurrences_length F1 (row F1 i)
                     (representative (us F1) i)) as Hsum.
  all: set (mem := facet_group F1 (row F1 i)) in *.
  all: set (cons := consistent_occurrences F1 (row F1 i)
                      (representative (us F1) i)) in *.
  all: set (rev := reversed_occurrences F1 (row F1 i)
                     (representative (us F1) i)) in *.
  - (* one occurrence *)
    intros L. rewrite L in Hdec. simpl in Hdec. now injection Hdec.
  - (* signed count +1 *)
    intros Hsc. destruct (Nat.eqb_spec (length mem) 1) as [L|L].
    + injection Hdec as <-.
      assert (Ec : cons = mem).
      { apply (filter_all (fun j => consistent (row F1 j)
                                      (representative (us F1) i)) mem).
        change (length cons = length mem). lia. }
      rewrite Ec. destruct mem as [|c [|? ?]]; simpl in L; try lia.
      now exists c, [].
    + rewrite Hsc in Hdec. simpl in Hdec. injection Hdec as <-.
      destruct cons as [|c rest]; simpl in *; [lia|]. now exists c, rest.
  - (* signed count -1 *)
    intros Hsc. destruct (Nat.eqb_spec (length mem) 1) as [L|L].
    + injection Hdec as <-.
      assert (Ec : rev = mem).
      { apply (filter_all (fun j => negb (consistent (row F1 j)
                                            (representative (us F1) i))) mem).
        change (length rev = length mem). lia. }
      rewrite Ec. destruct mem as [|c [|? ?]]; simpl in L; try lia.
      now exists c, [].
    + rewrite Hsc in Hdec. simpl in Hdec. injection Hdec as <-.
      destruct rev as [|c rest]; simpl in *; [lia|]. now exists c, rest.
  - (* signed count 0 *)
    intros Hsc. destruct (Nat.eqb_spec (length mem) 1) as [L|L]; [lia|].
    rewrite Hsc in Hdec. simpl in Hdec. now injection Hdec.
Qed.

(** C2. When some group of duplicated facets with more than one occurrence
    has a signed count other than -1, 0 and +1, [resolve_duplicated_faces]
    fails on the assertion [counts[i] == 0]: it returns no facet list. *)
Theorem duplicate_group_violation_fails
    (us : list Face -> Simplices) (F1 : list Face) (J1 : list Z) (i : nat) :
  Z.of_nat (length F1) < 2 ^ 31 ->
  unique_simplices_spec F1 (us F1) ->
  (i < length F1)%nat ->
  (1 < length (facet_group F1 (row F1 i)))%nat ->
  signed_count F1 (row F1 i) (representative (us F1) i) <> -1 ->
  signed_count F1 (row F1 i) (representative (us F1) i) <> 0 ->
  signed_count F1 (row F1 i) (representative (us F1) i) <> 1 ->
  resolve_duplicated_faces us F1 J1 = Err (AssertionFailed "counts[i] == 0").
Proof.
  intros Hsize Hspec Hi Hocc Hm1 H0 H1.
  apply (resolve_duplicated_faces_Err us F1 Hsize Hspec J1 i
           (AssertionFailed "counts[i] == 0") Hi).
  unfold signed_count in *. unfold group_decision.
  destruct (Nat.eqb_spec (length (facet_group F1 (row F1 i))) 1); [lia|].
  destruct (Z.eqb_spec
    (Z.of_nat (length (consistent_occurrences F1 (row F1 i)
                         (representative (us F1) i))) -
     Z.of_nat (length (reversed_occurrences F1 (row F1 i)
                         (representative (us F1) i)))) 1); [lia|].
  destruct (Z.eqb_spec
    (Z.of_nat (length (consistent_occurrences F1 (row F1 i)
                         (representative (us F1) i))) -
     Z.of_nat (length (reversed_occurrences F1 (row F1 i)
                         (representative (us F1) i)))) (-1)); [lia|].
  destruct (Z.eqb_spec
    (Z.of_nat (length (consistent_occurrences F1 (row F1 i)
                         (representative (us F1) i))) -
     Z.of_nat (length (reversed_occurrences F1 (row F1 i)
                         (representative (us F1) i)))) 0); [lia|].
  reflexivity.
Qed.
(** C3, as the code has it. When the same vertex triple is in the facet
    list exactly twice, at positions [i] and [j]: if the two occurrences
    have matching orientation the signed count of the group is 2 and
    [resolve_duplicated_faces] fails on the assertion [counts[i] == 0]; if
    one occurrence is reversed relative to the other, no facet with that
    triple is in the output, and a list of these two facets alone gives the
    empty output. *)
Theorem duplicate_pair_resolved
    (us : list Face -> Simplices) (F1 : list Face) (J1 : list Z) (i j : nat) :
  Z.of_nat (length F1) < 2 ^ 31 ->
  unique_simplices_spec F1 (us F1) ->
  facet_group F1 (row F1 i) = [i; j] ->
  (consistent (row F1 i) (row F1 j) = true ->
   resolve_duplicated_faces us F1 J1 =
   Err (AssertionFailed "counts[i] == 0")) /\
  (consistent (row F1 i) (row F1 j) = false ->
   (forall F2 J2, resolve_duplicated_faces us F1 J1 = Ok (F2, J2) ->
      Forall (fun f => same_simplex f (row F1 i) = false) F2) /\
   (length F1 = 2%nat -> resolve_duplicated_faces us F1 J1 = Ok ([], []))).
Proof.
  intros Hsize Hspec Hgrp.
  assert (Hi : (i < length F1)%nat).
  { assert (Hin : In i (facet_group F1 (row F1 i)))
      by (rewrite Hgrp; now left).
    unfold facet_group in Hin. apply filter_In in Hin.
    destruct Hin as [Hin _]. apply in_seq in Hin. lia. }
  destruct (representative_in_group us F1 Hspec i Hi) as (a & Ha & Hrep).
  rewrite Hgrp in Ha.
  split.
  - (* matching orientation *)
    intros Hc.
    apply (resolve_duplicated_faces_Err us F1 Hsize Hspec J1 i
             (AssertionFailed "counts[i] == 0") Hi).
    unfold consistent_occurrences, reversed_occurrences.
    rewrite Hgrp, Hrep. simpl.
    destruct Ha as [<-|[<-|[]]].
    + rewrite consistent_refl, (consistent_sym (row F1 j)), Hc. reflexivity.
    + rewrite consistent_refl, Hc. reflexivity.
  - (* one occurrence reversed *)
    intros Hc.
    assert (Hdec : group_decision
              (facet_group F1 (row F1 i))
              (consistent_occurrences F1 (row F1 i) (representative (us F1) i))
              (reversed_occurrences F1 (row F1 i) (representative (us F1) i))
            = Ok []).
    { unfold consistent_occurrences, reversed_occurrences.
      rewrite Hgrp, Hrep. simpl.
      destruct Ha as [<-|[<-|[]]].
      - rewrite consistent_refl, (consistent_sym (row F1 j)), Hc.
        reflexivity.
      - rewrite consistent_refl, Hc. reflexivity. }
    assert (Hnone : forall kept, kept_faces_of us F1 = Ok kept ->
                                 survivors F1 kept (row F1 i) = []).
    { intros kept Hk.
      pose proof (kept_faces_of_group us F1 Hsize Hspec kept i Hk Hi) as E.
      rewrite Hdec in E. now injection E. }
    split.
    + intros F2 J2 Hres.
      destruct (resolve_duplicated_faces_Ok us F1 J1 F2 J2 Hres)
        as (kept & Hkept & -> & _).
      specialize (Hnone kept Hkept). unfold survivors in Hnone.
      apply Forall_forall. intros f Hf. apply in_map_iff in Hf.
      destruct Hf as (k & <- & Hk).
      destruct (same_simplex (row F1 k) (row F1 i)) eqn:E; [|reflexivity].
      assert (Hin : In k (filter (fun k => same_simplex (row F1 k) (row F1 i))
                                 kept))
        by (apply filter_In; now split).
      rewrite Hnone in Hin. destruct Hin.
    + intros Hlen.
      (* the two facets are the whole list *)
      assert (Hall : forall k, (k < length F1)%nat ->
                same_simplex (row F1 k) (row F1 i) = true).
      { intros k Hk.
        assert (E : facet_group F1 (row F1 i) = seq 0 (length F1)).
        { unfold facet_group. apply filter_all.
          fold (facet_group F1 (row F1 i)).
          rewrite Hgrp, length_seq, Hlen. reflexivity. }
        assert (Hin : In k (facet_group F1 (row F1 i)))
          by (rewrite E; apply in_seq; lia).
        unfold facet_group in Hin. apply filter_In in Hin. tauto. }
      (* hence there is one group, and it decides to keep nothing *)
      assert (Htot : exists kept, kept_faces_of us F1 = Ok kept).
      { rewrite (kept_faces_of_loop us F1 Hspec).
        eexists. apply push_groups_total. apply Forall_forall.
        intros u Hu. apply in_seq in Hu. exists [].
        destruct (us_representative _ _ Hspec u ltac:(lia))
          as (Hb & Hic & _).
        pose proof (proj2 (us_IC_group _ _ Hspec _ _ Hb Hi)
                      (Hall _ Hb)) as Eu.
        rewrite Hic in Eu. subst u.
        rewrite (resolve_group_contract us F1 Hsize Hspec) by lia.
        rewrite (decide_group_of_facet us F1 Hspec) by assumption.
        exact Hdec. }
      destruct Htot as (kept & Hkept).
      unfold resolve_duplicated_faces. rewrite Hkept. simpl.
      specialize (Hnone kept Hkept).
      destruct (kept_faces_sorted us F1 Hsize Hspec kept Hkept) as [Hlt _].
      destruct kept as [|k kept]; [reflexivity|].
      inversion Hlt as [|? ? Hk _]; subst.
      unfold survivors in Hnone. simpl in Hnone.
      rewrite (Hall k Hk) in Hnone. discriminate.
Qed.

(** C5, as the code has it. The output facet buffer and provenance array
    hold the rows of the surviving facets and nothing else; the survivors
    are listed in the order of their groups in the output of
    [unique_simplices], one survivor for a group at most. *)
Theorem survivors_in_group_order
    (us : list Face -> Simplices) (F1 : list Face) (J1 : list Z)
    (F2 : list Face) (J2 : list Z) :
  Z.of_nat (length F1) < 2 ^ 31 ->
  unique_simplices_spec F1 (us F1) ->
  resolve_duplicated_faces us F1 J1 = Ok (F2, J2) ->
  exists kept,
    kept_faces_of us F1 = Ok kept /\
    F2 = map (fun k => row F1 k) kept /\
    J2 = map (fun k => nth k J1 0) kept /\
    Forall (fun k => (k < length F1)%nat) kept /\
    StronglySorted lt (map (fun k => nth k (IC (us F1)) 0%nat) kept).
Proof.
  intros Hsize Hspec Hres.
  destruct (resolve_duplicated_faces_Ok us F1 J1 F2 J2 Hres)
    as (kept & Hkept & HF2 & HJ2).
  exists kept.
  destruct (kept_faces_sorted us F1 Hsize Hspec kept Hkept) as [Hlt Hs].
  repeat split; assumption.
Qed.
(** The four kinds of groups in one facet list: faces 0, 3 and 7 are kept. *)
Lemma duplicate_groups_resolved_witness :
  Z.of_nat (length example_faces) < 2 ^ 31 /\
  resolve_duplicated_faces unique_simplices_first example_faces example_birth
  = Ok ([(0, 1, 2); (3, 4, 5); (10, 9, 8)], [100; 103; 107]) /\
  exists kept,
    kept_faces_of unique_simplices_first example_faces = Ok kept /\
    [(0, 1, 2); (3, 4, 5); (10, 9, 8)] =
      map (fun k => row example_faces k) kept /\
    [100; 103; 107] = map (fun k => nth k example_birth 0) kept /\
    forall i, (i < length example_faces)%nat ->
      let f := row example_faces i in
      let rep := representative (unique_simplices_first example_faces) i in
      (length (facet_group example_faces f) = 1%nat ->
       survivors example_faces kept f = facet_group example_faces f) /\
      (signed_count example_faces f rep = 1 ->
       exists c rest,
         consistent_occurrences example_faces f rep = c :: rest /\
         survivors example_faces kept f = [c]) /\
      (signed_count example_faces f rep = -1 ->
       exists r rest,
         reversed_occurrences example_faces f rep = r :: rest /\
         survivors example_faces kept f = [r]) /\
      (signed_count example_faces f rep = 0 ->
       survivors example_faces kept f = []).
Proof.
  split; [reflexivity|]. split; [reflexivity|].
  apply (proj2 (duplicate_groups_resolved unique_simplices_first
                  example_faces example_birth eq_refl
                  (unique_simplices_first_spec example_faces))).
  reflexivity.
Defined.

(** Three copies with the same orientation: signed count 3. *)
Lemma duplicate_group_violation_fails_witness :
  (1 < length (facet_group example_triple (row example_triple 1)))%nat /\
  signed_count example_triple (row example_triple 1)
    (representative (unique_simplices_first example_triple) 1) = 3 /\
  resolve_duplicated_faces unique_simplices_first example_triple [0; 1; 2; 3]
  = Err (AssertionFailed "counts[i] == 0").
Proof.
  split; [vm_compute; lia|]. split; [reflexivity|].
  apply (duplicate_group_violation_fails unique_simplices_first example_triple
           [0; 1; 2; 3] 1%nat).
  - reflexivity.
  - apply unique_simplices_first_spec.
  - vm_compute; lia.
  - vm_compute; lia.
  - vm_compute; discriminate.
  - vm_compute; discriminate.
  - vm_compute; discriminate.
Defined.

(** Two copies of a facet with matching orientation: the call fails, so it
    is not the case that exactly one of them is in the output. *)
Lemma matching_pair_not_kept :
  resolve_duplicated_faces unique_simplices_first [(0, 1, 2); (0, 1, 2)] [0; 1]
  = Err (AssertionFailed "counts[i] == 0") /\
  ~ (exists F2 J2,
       resolve_duplicated_faces unique_simplices_first
         [(0, 1, 2); (0, 1, 2)] [0; 1] = Ok (F2, J2) /\
       length F2 = 1%nat).
Proof.
  split; [reflexivity|].
  intros (F2 & J2 & H & _). vm_compute in H. discriminate.
Qed.

(** A facet and its reverse: nothing is kept. *)
Lemma duplicate_pair_resolved_witness :
  facet_group [(0, 1, 2); (2, 1, 0)] (row [(0, 1, 2); (2, 1, 0)] 0) = [0; 1]%nat
  /\ consistent (0, 1, 2) (2, 1, 0) = false /\
  resolve_duplicated_faces unique_simplices_first [(0, 1, 2); (2, 1, 0)] [0; 1]
  = Ok ([], []).
Proof.
  split; [reflexivity|]. split; [reflexivity|].
  apply (duplicate_pair_resolved unique_simplices_first
           [(0, 1, 2); (2, 1, 0)] [0; 1] 0%nat 1%nat).
  - reflexivity.
  - apply unique_simplices_first_spec.
  - reflexivity.
  - reflexivity.
  - reflexivity.
Defined.

(** The example of claim C5 under any numbering of the groups: whenever
    [unique_simplices] meets its contract and numbers the group of the first
    facet before the group of the second (as a numbering by first
    occurrence and a numbering by sorted triple both do), the kept faces
    are 2 and then 1. *)
Lemma reversed_twice_any_numbering (us : list Face -> Simplices) :
  unique_simplices_spec example_reversed_twice (us example_reversed_twice) ->
  (nth 0 (IC (us example_reversed_twice)) 0 <
   nth 1 (IC (us example_reversed_twice)) 0)%nat ->
  kept_faces_of us example_reversed_twice = Ok [2; 1]%nat.
Proof.
  intros Hspec Horder.
  set (F := example_reversed_twice) in *.
  assert (Hsize : Z.of_nat (length F) < 2 ^ 31) by (simpl; lia).
  (* the representative of a group is one of its rows *)
  assert (Hrep0 : representative (us F) 0 = (1, 2, 3) \/
                  representative (us F) 0 = (3, 2, 1)).
  { destruct (representative_in_group us F Hspec 0%nat ltac:(simpl; lia))
      as (a & Ha & ->).
    change (facet_group F (row F 0)) with [0; 2; 3]%nat in Ha.
    destruct Ha as [<-|[<-|[<-|[]]]]; auto. }
  assert (Hrep1 : representative (us F) 1 = (4, 5, 6)).
  { destruct (representative_in_group us F Hspec 1%nat ltac:(simpl; lia))
      as (a & Ha & ->).
    change (facet_group F (row F 1)) with [1]%nat in Ha.
    destruct Ha as [<-|[]]; auto. }
  pose proof (us_IC_group _ _ Hspec 2 0 ltac:(simpl; lia) ltac:(simpl; lia))
    as [_ H20]. specialize (H20 eq_refl).
  pose proof (us_IC_group _ _ Hspec 3 0 ltac:(simpl; lia) ltac:(simpl; lia))
    as [_ H30]. specialize (H30 eq_refl).
  assert (Hrep2 : representative (us F) 2 = representative (us F) 0)
    by (unfold representative; now rewrite H20).
  assert (Hrep3 : representative (us F) 3 = representative (us F) 0)
    by (unfold representative; now rewrite H30).
  (* the second loop ends *)
  destruct (kept_faces_of_returns us F Hsize Hspec) as (kept & Hkept).
  { intros i Hi _.
    destruct i as [|[|[|[|i]]]]; [| | | |simpl in Hi; lia];
      rewrite ?Hrep1, ?Hrep2, ?Hrep3;
      try (destruct Hrep0 as [-> | ->]); vm_compute; split; discriminate. }
  rewrite Hkept. f_equal.
  (* what survives of the two groups *)
  pose proof (kept_faces_of_group us F Hsize Hspec kept 0 Hkept
                ltac:(simpl; lia)) as S0.
  pose proof (kept_faces_of_group us F Hsize Hspec kept 1 Hkept
                ltac:(simpl; lia)) as S1.
  assert (S0' : survivors F kept (1, 2, 3) = [2]%nat).
  { assert (E : group_decision (facet_group F (row F 0))
                  (consistent_occurrences F (row F 0) (representative (us F) 0))
                  (reversed_occurrences F (row F 0) (representative (us F) 0))
                = Ok [2]%nat)
      by (destruct Hrep0 as [-> | ->]; reflexivity).
    rewrite E in S0. injection S0 as S0. symmetry. exact S0. }
  assert (S1' : survivors F kept (4, 5, 6) = [1]%nat).
  { assert (E : group_decision (facet_group F (row F 1))
                  (consistent_occurrences F (row F 1) (representative (us F) 1))
                  (reversed_occurrences F (row F 1) (representative (us F) 1))
                = Ok [1]%nat)
      by (rewrite Hrep1; reflexivity).
    rewrite E in S1. injection S1 as S1. symmetry. exact S1. }
  clear S0 S1.
  destruct (kept_faces_sorted us F Hsize Hspec kept Hkept) as [Hlt Hs].
  (* every kept face is 1 or 2 *)
  assert (Hin : forall k, In k kept -> k = 1%nat \/ k = 2%nat).
  { intros k Hk. rewrite Forall_forall in Hlt. pose proof (Hlt k Hk) as Hk4.
    simpl in Hk4.
    assert (H0 : same_simplex (row F k) (1, 2, 3) = true -> In k [2]%nat)
      by (intros E; rewrite <- S0'; unfold survivors; apply filter_In; auto).
    destruct k as [|[|[|[|k]]]]; auto; try lia.
    - destruct (H0 eq_refl) as [E | []]; discriminate E.
    - destruct (H0 eq_refl) as [E | []]; discriminate E. }
  assert (H2 : In 2%nat kept).
  { assert (H : In 2%nat (survivors F kept (1, 2, 3)))
      by (rewrite S0'; now left).
    unfold survivors in H. now apply filter_In in H. }
  assert (H1 : In 1%nat kept).
  { assert (H : In 1%nat (survivors F kept (4, 5, 6)))
      by (rewrite S1'; now left).
    unfold survivors in H. now apply filter_In in H. }
  (* and the group of face 2 comes first *)
  destruct kept as [|x [|y [|z kept]]].
  - destruct H2.
  - destruct H2 as [-> | []]. destruct H1 as [E | []]. discriminate E.
  - destruct (Hin x ltac:(simpl; auto)) as [-> | ->],
             (Hin y ltac:(simpl; auto)) as [-> | ->];
      simpl in Hs; inversion Hs as [|? ? _ Hall]; subst;
      inversion Hall as [|? ? Hxy _]; subst; try lia; reflexivity.
  - exfalso.
    destruct (Hin x ltac:(simpl; auto)) as [-> | ->],
             (Hin y ltac:(simpl; auto)) as [-> | ->],
             (Hin z ltac:(simpl; auto)) as [-> | ->];
      simpl in Hs; inversion Hs as [|? ? Hs' Hall]; subst;
      inversion Hall as [|? ? Hxy Hall']; subst;
      inversion Hall' as [|? ? Hxz _]; subst;
      inversion Hs' as [|? ? _ Hall'']; subst;
      inversion Hall'' as [|? ? Hyz _]; subst; lia.
Qed.

(** The first facet survives through its first reversed copy, at position 2,
    and is listed before the facet of position 1: the output is not in the
    order of the input. *)
Lemma input_order_not_preserved :
  resolve_duplicated_faces unique_simplices_first example_reversed_twice
    [10; 11; 12; 13] = Ok ([(3, 2, 1); (4, 5, 6)], [12; 11]) /\
  kept_faces_of unique_simplices_first example_reversed_twice
    = Ok [2; 1]%nat /\
  subsequenceb [(3, 2, 1); (4, 5, 6)] example_reversed_twice = false /\
  ~ (exists kept,
       StronglySorted lt kept /\
       [(3, 2, 1); (4, 5, 6)] = map (fun k => row example_reversed_twice k) kept
       /\ [12; 11] = map (fun k => nth k [10; 11; 12; 13] 0) kept).
Proof.
  repeat split; try reflexivity.
  intros (kept & Hs & _ & HJ).
  destruct kept as [|a [|b [|? ?]]]; simpl in HJ; try discriminate.
  injection HJ as Ha Hb.
  assert (a = 2%nat)
    by (destruct a as [|[|[|[|[|a]]]]]; simpl in Ha; congruence).
  assert (b = 1%nat)
    by (destruct b as [|[|[|[|[|b]]]]]; simpl in Hb; congruence).
  subst. inversion Hs as [|? ? _ Hall]; subst.
  inversion Hall as [|? ? Hlt _]; subst. lia.
Qed.

(** The survivors of the example, in the order of their groups. *)
Lemma survivors_in_group_order_witness :
  resolve_duplicated_faces unique_simplices_first example_reversed_twice
    [10; 11; 12; 13] = Ok ([(3, 2, 1); (4, 5, 6)], [12; 11]) /\
  exists kept,
    kept_faces_of unique_simplices_first example_reversed_twice = Ok kept /\
    [(3, 2, 1); (4, 5, 6)] = map (fun k => row example_reversed_twice k) kept /\
    [12; 11] = map (fun k => nth k [10; 11; 12; 13] 0) kept /\
    Forall (fun k => (k < length example_reversed_twice)%nat) kept /\
    StronglySorted lt
      (map (fun k => nth k (IC (unique_simplices_first example_reversed_twice))
                         0%nat) kept).
Proof.
  split; [reflexivity|].
  apply (survivors_in_group_order unique_simplices_first example_reversed_twice
           [10; 11; 12; 13]).
  - reflexivity.
  - apply unique_simplices_first_spec.
  - reflexivity.
Defined.
(* ================================================================== *)
(** * Boundary extraction (lines 239-268) *)
(* ================================================================== *)

Lemma select_face_app (keep : Z -> Z -> Z) (Wr : list (Z * Z))
    (selected : list Z) (i : nat) :
  select_face keep Wr selected i = selected ++ select_face keep Wr [] i.
Proof.
  unfold select_face.
  destruct (0 <? _); [reflexivity|].
  destruct (_ <? 0); [reflexivity | now rewrite app_nil_r].
Qed.

Lemma select_faces_fold (keep : Z -> Z -> Z) (Wr : list (Z * Z))
    (l : list nat) (selected : list Z) :
  fold_left (select_face keep Wr) l selected =
  selected ++ flat_map (select_face keep Wr []) l.
Proof.
  revert selected; induction l as [|i l IH]; intros selected; simpl.
  - now rewrite app_nil_r.
  - rewrite IH, select_face_app, app_assoc. reflexivity.
Qed.

Lemma select_faces_flat_map (keep : Z -> Z -> Z) (Wr : list (Z * Z))
    (n : nat) :
  select_faces keep Wr n = flat_map (select_face keep Wr []) (seq 0 n).
Proof. unfold select_faces. now rewrite select_faces_fold. Qed.

Lemma map_flat_map {A B D} (f : B -> D) (g : A -> list B) (l : list A) :
  map f (flat_map g l) = flat_map (fun x => map f (g x)) l.
Proof.
  induction l as [|x l IH]; simpl; [reflexivity|].
  now rewrite map_app, IH.
Qed.

Lemma flat_map_ext_in {A B} (f g : A -> list B) (l : list A) :
  (forall x, In x l -> f x = g x) -> flat_map f l = flat_map g l.
Proof.
  induction l as [|x l IH]; intros H; simpl; [reflexivity|].
  rewrite (H x) by now left. rewrite IH; [reflexivity|].
  intros; apply H; now right.
Qed.

Lemma flat_map_singleton {A B} (f : A -> B) (l : list A) :
  flat_map (fun x => [f x]) l = map f l.
Proof. induction l; simpl; congruence. Qed.

Lemma face_of_index_to_signed_index (i : nat) (ori : bool) :
  Z.of_nat i + 1 < 2 ^ 31 ->
  face_of_signed (index_to_signed_index i ori) = i.
Proof.
  intros Hi. rewrite index_to_signed_index_small by assumption.
  apply face_of_signed_small; [assumption | destruct ori; auto].
Qed.

Lemma index_to_signed_index_positive (i : nat) (ori : bool) :
  Z.of_nat i + 1 < 2 ^ 31 -> (0 <? index_to_signed_index i ori) = ori.
Proof.
  intros Hi. rewrite index_to_signed_index_small by assumption.
  destruct ori; [apply Z.ltb_lt | apply Z.ltb_ge]; lia.
Qed.

(** The rows that facet [i] puts in [kept_faces] and [kept_face_indices]. *)
Lemma kept_rows_of_face (keep : Z -> Z -> Z) (Wr : list (Z * Z))
    (F : list Face) (CJ : list Z) (i : nat) :
  Z.of_nat i + 1 < 2 ^ 31 ->
  let k := keep (w_out_result Wr i) (w_in_result Wr i) in
  kept_face_rows F (select_face keep Wr [] i) =
    (if 0 <? k then [row F i]
     else if k <? 0 then [reverse (row F i)] else []) /\
  kept_face_index_rows CJ (select_face keep Wr [] i) =
    (if 0 <? k then [nth i CJ 0]
     else if k <? 0 then [nth i CJ 0] else []).
Proof.
  intros Hi k. unfold select_face, kept_face_rows, kept_face_index_rows.
  fold (w_out_result Wr i) (w_in_result Wr i). fold k.
  destruct (0 <? k); simpl.
  - rewrite index_to_signed_index_positive,
      face_of_index_to_signed_index by assumption. auto.
  - destruct (k <? 0); simpl; [|auto].
    rewrite index_to_signed_index_positive,
      face_of_index_to_signed_index by assumption. auto.
Qed.

Lemma kept_rows_flat_map (keep : Z -> Z -> Z) (Wr : list (Z * Z))
    (F : list Face) (CJ : list Z) (n : nat) :
  Z.of_nat n < 2 ^ 31 ->
  kept_face_rows F (select_faces keep Wr n) =
    flat_map (fun i =>
                let k := keep (w_out_result Wr i) (w_in_result Wr i) in
                if 0 <? k then [row F i]
                else if k <? 0 then [reverse (row F i)] else [])
             (seq 0 n) /\
  kept_face_index_rows CJ (select_faces keep Wr n) =
    flat_map (fun i =>
                let k := keep (w_out_result Wr i) (w_in_result Wr i) in
                if 0 <? k then [nth i CJ 0]
                else if k <? 0 then [nth i CJ 0] else [])
             (seq 0 n).
Proof.
  intros Hn. rewrite select_faces_flat_map.
  unfold kept_face_rows at 1, kept_face_index_rows at 1.
  rewrite !map_flat_map. split; apply flat_map_ext_in; intros i Hi;
    apply in_seq in Hi;
    destruct (kept_rows_of_face keep Wr F CJ i ltac:(lia)) as [H1 H2];
    [exact H1 | exact H2].
Qed.

Lemma map_row_seq (F : list Face) : map (row F) (seq 0 (length F)) = F.
Proof.
  apply nth_ext with (d := row F 0%nat) (d' := (0, 0, 0)).
  - now rewrite length_map, length_seq.
  - intros k Hk. rewrite length_map, length_seq in Hk.
    rewrite map_nth, seq_nth by assumption. reflexivity.
Qed.




(* ================================================================== *)
(** * The operation switch and the merge step *)
(* ================================================================== *)

Lemma state_eta {C} (s : State C) :
  mkState (out_VC s) (out_FC s) (out_J s) (calls s) = s.
Proof. now destruct s. Qed.

Lemma mesh_boolean_unrecognized {CoordA CoordE CoordC}
    (lib : Collaborators CoordA CoordE CoordC)
    (VA : Matrix CoordA) (FA : list Face) (VB : Matrix CoordA)
    (FB : list Face) (type : Z) (resolve_func : ResolveFunc)
    (s : State CoordC) :
  ~ recognized type ->
  mesh_boolean lib VA FA VB FB type resolve_func s =
  (Err (RuntimeError "Unsupported boolean type."), s).
Proof.
  intros Hn. unfold mesh_boolean, recognized in *.
  destruct (Z.eqb_spec type MESH_BOOLEAN_TYPE_UNION); [tauto|].
  destruct (Z.eqb_spec type MESH_BOOLEAN_TYPE_INTERSECT); [tauto|].
  destruct (Z.eqb_spec type MESH_BOOLEAN_TYPE_MINUS); [tauto|].
  destruct (Z.eqb_spec type MESH_BOOLEAN_TYPE_XOR); [tauto|].
  destruct (Z.eqb_spec type MESH_BOOLEAN_TYPE_RESOLVE); [tauto|].
  reflexivity.
Qed.

(** C6. A call of [mesh_boolean], by any of its three overloads, with an
    operation that is none of the five recognized ones fails with the
    runtime error "Unsupported boolean type." (the InvalidOperation of the
    specification); the outputs [VC], [FC], [J] are as they were and no
    collaborator has been called: nothing was computed. *)
Theorem unsupported_type_fails {CoordA CoordE CoordC : Type}
    (lib : Collaborators CoordA CoordE CoordC)
    (VA : Matrix CoordA) (FA : list Face) (VB : Matrix CoordA)
    (FB : list Face) (type : Z) (resolve_func : ResolveFunc)
    (s : State CoordC) :
  ~ recognized type ->
  mesh_boolean lib VA FA VB FB type resolve_func s =
    (Err (RuntimeError "Unsupported boolean type."), s) /\
  mesh_boolean_J lib VA FA VB FB type s =
    (Err (RuntimeError "Unsupported boolean type."), s) /\
  mesh_boolean_VF lib VA FA VB FB type s =
    (Err (RuntimeError "Unsupported boolean type."), s).
Proof.
  intros Hn. split; [|split].
  - now apply mesh_boolean_unrecognized.
  - unfold mesh_boolean_J. now apply mesh_boolean_unrecognized.
  - unfold mesh_boolean_VF, mesh_boolean_J.
    rewrite mesh_boolean_unrecognized by assumption. simpl.
    now rewrite state_eta.
Qed.

(** Operation 5 on a state with outputs already filled in. *)
Lemma unsupported_type_fails_witness :
  ~ recognized 5 /\
  mesh_boolean_VF example_lib [[0; 0; 0]; [1; 0; 0]; [0; 1; 0]] [(0, 1, 2)]
    [] [] 5 (mkState [[7; 7; 7]] [(0, 0, 0)] [3] [])
  = (Err (RuntimeError "Unsupported boolean type."),
     mkState [[7; 7; 7]] [(0, 0, 0)] [3] []).
Proof.
  assert (H : ~ recognized 5)
    by (unfold recognized; intros [H|[H|[H|[H|H]]]]; discriminate H).
  split; [exact H|].
  apply (unsupported_type_fails example_lib
           [[0; 0; 0]; [1; 0; 0]; [0; 1; 0]] [(0, 1, 2)] [] [] 5
           (igl_resolve example_lib)
           (mkState [[7; 7; 7]] [(0, 0, 0)] [3] []) H).
Defined.

Lemma shift_index_small (VA_rows VB_rows : nat) (a : Z) :
  Z.of_nat VA_rows + Z.of_nat VB_rows < 2 ^ 31 ->
  0 <= a < Z.of_nat VB_rows ->
  @shift_index VA_rows a = a + Z.of_nat VA_rows.
Proof.
  intros Hn Ha. unfold shift_index.
  rewrite (to_int_small (Z.of_nat VA_rows)) by lia.
  apply to_int_small; lia.
Qed.


(* ================================================================== *)
(** * The winding-number table (lines 218-227) *)
(* ================================================================== *)

(** C9. The table of winding numbers is padded to four columns only when
    the propagator returns two columns, and then the source asserts that
    [FB] has no rows. When a call with facets in [FB] gets four columns the
    padding is not reached; a table of two columns in a call with facets in
    [FB] is an assertion failure of the whole operation, not a padded
    table. *)
Theorem padding_only_without_B {CoordA CoordE CoordC : Type}
    (lib : Collaborators CoordA CoordE CoordC)
    (VA : Matrix CoordA) (FA : list Face) (VB : Matrix CoordA)
    (FB : list Face) (wind_num_op : Z -> Z -> Z) (keep : Z -> Z -> Z)
    (resolve_fun : ResolveFunc) (W : MatrixXi) (s : State CoordC) :
  (forall W' s', four_columns FB W s = (Ok W', s') ->
     s' = s /\
     ((cols W = 2 /\ FB = [] /\ W' = pad_two_columns W) \/
      (cols W = 4 /\ W' = W))) /\
  (cols W = 2 -> FB <> [] ->
   four_columns FB W s = (Err (AssertionFailed "FB.rows() == 0"), s)) /\
  ((FB <> [] -> cols W = 4) -> FB <> [] ->
   four_columns FB W s = (Ok W, s)) /\
  (forall V F CJ s1,
     resolve_intersections VA FA VB FB resolve_fun s = (Ok (V, F, CJ), s1) ->
     propagate_winding_numbers lib V F (labels_of (length FA) CJ) = Ok W ->
     length (rows W) = length F ->
     cols W = 2 -> FB <> [] ->
     fst (per_face_winding_number_binary_operation lib VA FA VB FB
            wind_num_op keep resolve_fun s)
     = Err (AssertionFailed "FB.rows() == 0")).
Proof.
  split; [|split; [|split]].
  - intros W' s'. unfold four_columns, bind, massert, ret, rassert.
    destruct (Z.eqb_spec (cols W) 2) as [E|E].
    + destruct FB as [|f FB']; simpl; [|discriminate].
      intros [= <- <-]. auto.
    + destruct (Z.eqb_spec (cols W) 4) as [E4|E4]; simpl; [|discriminate].
      intros [= <- <-]. auto.
  - intros E HFB. unfold four_columns, bind, massert, rassert.
    rewrite E; simpl. destruct FB; [congruence | reflexivity].
  - intros Hpre HFB. unfold four_columns, bind, massert, ret, rassert.
    rewrite (Hpre HFB); simpl. reflexivity.
  - intros V F CJ s1 Hres Hprop Hrows Hcols HFB.
    unfold per_face_winding_number_binary_operation.
    unfold bind at 1. rewrite Hres.
    unfold bind at 1. unfold invoke at 1. rewrite Hprop.
    unfold bind at 1. unfold massert at 1. rewrite Hrows, Nat.eqb_refl.
    simpl.
    unfold bind at 1. unfold four_columns. rewrite Hcols. simpl.
    unfold bind at 1. unfold massert, rassert.
    destruct FB; [congruence | reflexivity].
Qed.

(** A table of two columns, with and without facets in [FB]. *)
Lemma padding_only_without_B_witness :
  four_columns (CoordC := Z) [(0, 1, 2)] {| cols := 2; rows := [[0; 1]] |}
    empty_state
  = (Err (AssertionFailed "FB.rows() == 0"), empty_state) /\
  four_columns (CoordC := Z) [] {| cols := 2; rows := [[0; 1]] |} empty_state
  = (Ok {| cols := 4; rows := [[0; 1; 0; 0]] |}, empty_state).
Proof.
  split; [|reflexivity].
  apply (padding_only_without_B example_lib [] [] [] [(0, 1, 2)]
           BinaryUnion KeepInside (igl_resolve example_lib)
           {| cols := 2; rows := [[0; 1]] |} empty_state).
  - reflexivity.
  - discriminate.
Defined.

(* ================================================================== *)
(** * The output J is neither read nor assigned *)
(* ================================================================== *)

Lemma same_but_J_refl {C} (s : State C) : same_but_J s s.
Proof. unfold same_but_J; auto. Qed.

Lemma J_blind_ret {C A} (a : A) : J_blind (@ret C A a).
Proof. intros s s' H. unfold ret; simpl. auto. Qed.

Lemma J_blind_throw {C A} (what : string) : J_blind (@throw C A what).
Proof. intros s s' H. unfold throw; simpl. auto. Qed.

Lemma J_blind_massert {C} (c : bool) (condition : string) :
  J_blind (@massert C c condition).
Proof. intros s s' H. unfold massert; simpl. auto. Qed.

Lemma J_blind_invoke {C A} (c : call) (r : result A) :
  J_blind (@invoke C A c r).
Proof.
  intros s s' (H1 & H2 & H3). unfold invoke, same_but_J; simpl.
  rewrite H3. auto.
Qed.

Lemma J_blind_assign {C} (VC : Matrix C) (FC : list Face) :
  J_blind (assign_VC_FC VC FC).
Proof.
  intros s s' (H1 & H2 & H3). unfold assign_VC_FC, same_but_J; simpl. auto.
Qed.

Lemma J_blind_bind {C A B} (m : M C A) (k : A -> M C B) :
  J_blind m -> (forall a, J_blind (k a)) -> J_blind (bind m k).
Proof.
  intros Hm Hk s s' Hs. unfold bind.
  destruct (Hm s s' Hs) as (E & Hsim & HJ).
  destruct (m s) as [[a|e] s1], (m s') as [[a'|e'] s1']; simpl in *;
    try discriminate.
  - injection E as <-.
    destruct (Hk a s1 s1' Hsim) as (E' & Hsim' & HJ').
    repeat split; try assumption; try apply Hsim'. congruence.
  - injection E as <-. auto.
Qed.

Section JBlind.

Context {CoordA CoordE CoordC : Type}.
Variable lib : Collaborators CoordA CoordE CoordC.

Lemma J_blind_igl_resolve (V : Matrix CoordA) (F : list Face) :
  J_blind (igl_resolve (CoordC := CoordC) lib V F).
Proof.
  unfold igl_resolve.
  apply J_blind_bind; [apply J_blind_invoke|]. intros [[[Vr Fr] J] Iv].
  apply J_blind_bind; [apply J_blind_massert|]. intros _.
  apply J_blind_bind; [apply J_blind_invoke|]. intros [[Vo Fo] UIM].
  apply J_blind_ret.
Qed.

Lemma J_blind_four_columns (FB : list Face) (W : MatrixXi) :
  J_blind (four_columns (CoordC := CoordC) FB W).
Proof.
  unfold four_columns. destruct (cols W =? 2).
  - apply J_blind_bind; [apply J_blind_massert|]. intros _.
    apply J_blind_ret.
  - apply J_blind_bind; [apply J_blind_massert|]. intros _.
    apply J_blind_ret.
Qed.

Variable resolve_func : @ResolveFunc CoordA CoordE CoordC.
Hypothesis resolve_func_blind : forall V F, J_blind (resolve_func V F).

Lemma J_blind_per_face (VA : Matrix CoordA) (FA : list Face)
    (VB : Matrix CoordA) (FB : list Face)
    (wind_num_op keep : Z -> Z -> Z) :
  J_blind (per_face_winding_number_binary_operation lib VA FA VB FB
             wind_num_op keep resolve_func).
Proof.
  unfold per_face_winding_number_binary_operation, resolve_intersections.
  apply J_blind_bind.
  { apply J_blind_bind; [apply J_blind_invoke|]. intros _.
    apply resolve_func_blind. }
  intros [[V F] CJ].
  apply J_blind_bind; [apply J_blind_invoke|]. intros W.
  apply J_blind_bind; [apply J_blind_massert|]. intros _.
  apply J_blind_bind; [apply J_blind_four_columns|]. intros W4.
  apply J_blind_bind; [apply J_blind_invoke|]. intros [G J].
  apply J_blind_bind; [apply J_blind_invoke|]. intros [[VC FC] newIM].
  apply J_blind_assign.
Qed.

Lemma J_blind_mesh_boolean (VA : Matrix CoordA) (FA : list Face)
    (VB : Matrix CoordA) (FB : list Face) (type : Z) :
  J_blind (mesh_boolean lib VA FA VB FB type resolve_func).
Proof.
  unfold mesh_boolean.
  repeat (match goal with
          | |- J_blind (if ?c then _ else _) => destruct c
          end; [apply J_blind_per_face|]).
  apply J_blind_throw.
Qed.

End JBlind.

(** C10. The overload of [mesh_boolean] without [J] computes the result
    mesh of the overload with [J], whatever vector [J] the latter is given:
    the same outcome, the same [VC] and [FC], the same calls of
    collaborators; and it leaves everything else as it was. *)
Theorem overload_without_J_agrees {CoordA CoordE CoordC : Type}
    (lib : Collaborators CoordA CoordE CoordC)
    (VA : Matrix CoordA) (FA : list Face) (VB : Matrix CoordA)
    (FB : list Face) (type : Z) (s : State CoordC) (J0 : list Z) :
  let without_J := mesh_boolean_VF lib VA FA VB FB type s in
  let with_J := mesh_boolean_J lib VA FA VB FB type
                  (mkState (out_VC s) (out_FC s) J0 (calls s)) in
  fst without_J = fst with_J /\
  out_VC (snd without_J) = out_VC (snd with_J) /\
  out_FC (snd without_J) = out_FC (snd with_J) /\
  calls (snd without_J) = calls (snd with_J) /\
  out_J (snd without_J) = out_J s.
Proof.
  intros without_J with_J. unfold without_J, with_J, mesh_boolean_VF.
  pose proof (J_blind_mesh_boolean lib (igl_resolve lib)
                (J_blind_igl_resolve lib) VA FA VB FB type
                (mkState (out_VC s) (out_FC s) [] (calls s))
                (mkState (out_VC s) (out_FC s) J0 (calls s))) as H.
  destruct H as (E & (H1 & H2 & H3) & _).
  { unfold same_but_J; simpl; auto. }
  unfold mesh_boolean_J in *.
  destruct (mesh_boolean lib VA FA VB FB type (igl_resolve lib)
              (mkState (out_VC s) (out_FC s) [] (calls s))) as [r s1].
  simpl in *. auto.
Qed.
(* ================================================================== *)
(** * Unordered triples under a renumbering of the vertices *)
(* ================================================================== *)

Lemma same_simplex_permutation3 (f g : Face) :
  same_simplex f g = true <-> permutation3 f g.
Proof.
  rewrite same_simplex_iff. destruct f as [[a b] c], g as [[x y] z].
  unfold permutation3, col0, col1, col2; simpl. split.
  - unfold sort3.
    destruct (Z.leb_spec a b), (Z.leb_spec b c), (Z.leb_spec a c),
             (Z.leb_spec x y), (Z.leb_spec y z), (Z.leb_spec x z);
      intros [= -> -> ->]; tauto.
  - intros [H|[H|[H|[H|[H|H]]]]]; injection H as -> -> ->; unfold sort3;
      destruct (Z.leb_spec a b), (Z.leb_spec b c), (Z.leb_spec a c),
               (Z.leb_spec b a), (Z.leb_spec c b), (Z.leb_spec c a);
      try lia; try reflexivity; f_equal; try f_equal; lia.
Qed.


Lemma pairwise_distinct_map_face (r : Z -> Z) (f : Face) :
  (forall a b, mentions f a -> mentions f b -> r a = r b -> a = b) ->
  pairwise_distinct f -> pairwise_distinct (map_face r f).
Proof.
  destruct f as [[a b] c].
  unfold pairwise_distinct, map_face, mentions, col0, col1, col2; simpl.
  intros Hinj (H1 & H2 & H3). repeat split; intros E; apply Hinj in E; auto.
Qed.

Lemma pairwise_distinct_reverse (f : Face) :
  pairwise_distinct f -> pairwise_distinct (reverse f).
Proof.
  destruct f as [[a b] c].
  unfold pairwise_distinct, reverse, col0, col1, col2; simpl.
  intros (H1 & H2 & H3). repeat split; congruence.
Qed.


(* ================================================================== *)
(** * The model of remove_unreferenced meets the contract *)
(* ================================================================== *)






(* ================================================================== *)
(** * From the resolver's facets to the output facets *)
(* ================================================================== *)

Lemma row_in (F : list Face) (i : nat) : (i < length F)%nat -> In (row F i) F.
Proof. intros Hi. now apply nth_In. Qed.

Lemma nth_map_lt {A B} (g : A -> B) (l : list A) (a : nat) (d : B) (d' : A) :
  (a < length l)%nat -> nth a (map g l) d = g (nth a l d').
Proof.
  intros Ha. rewrite nth_indep with (d' := g d') by (now rewrite length_map).
  apply map_nth.
Qed.

Lemma row_map (g : nat -> Face) (l : list nat) (a : nat) :
  (a < length l)%nat -> row (map g l) a = g (nth a l 0%nat).
Proof.
  intros Ha. unfold row.
  rewrite nth_indep with (d' := g 0%nat) by (now rewrite length_map).
  apply map_nth.
Qed.

Lemma row_map_face (r : Z -> Z) (G : list Face) (a : nat) :
  (a < length G)%nat -> row (map (map_face r) G) a = map_face r (row G a).
Proof.
  intros Ha. unfold row.
  rewrite nth_indep with (d' := map_face r (0, 0, 0))
    by (now rewrite length_map).
  apply map_nth.
Qed.




Lemma pairwise_distinct_map_face_inv (r : Z -> Z) (f : Face) :
  pairwise_distinct (map_face r f) -> pairwise_distinct f.
Proof.
  destruct f as [[a b] c].
  unfold pairwise_distinct, map_face, col0, col1, col2; simpl.
  intros (H1 & H2 & H3). repeat split; congruence.
Qed.

Lemma pairwise_distinct_same_simplex (f g : Face) :
  same_simplex f g = true -> pairwise_distinct f -> pairwise_distinct g.
Proof.
  intros H. apply same_simplex_permutation3 in H.
  destruct f as [[a b] c].
  unfold permutation3, pairwise_distinct, col0, col1, col2 in *; simpl in *.
  intros (H1 & H2 & H3).
  destruct H as [-> | [-> | [-> | [-> | [-> | ->]]]]]; simpl;
    repeat split; congruence.
Qed.



(** A group with an odd number of occurrences has a kept face. *)
Lemma odd_group_survivor (us : list Face -> Simplices) (F1 : list Face)
    (kept : list nat) (i : nat) :
  Z.of_nat (length F1) < 2 ^ 31 ->
  unique_simplices_spec F1 (us F1) ->
  kept_faces_of us F1 = Ok kept ->
  (i < length F1)%nat ->
  Nat.odd (length (facet_group F1 (row F1 i))) = true ->
  exists k, In k kept /\ same_simplex (row F1 k) (row F1 i) = true.
Proof.
  intros Hsize Hspec Hkept Hi Hodd.
  pose proof (kept_faces_of_group us F1 Hsize Hspec kept i Hkept Hi) as Hdec.
  pose proof (occurrences_length F1 (row F1 i) (representative (us F1) i))
    as Hsum.
  apply Nat.odd_spec in Hodd. destruct Hodd as [h Hh].
  assert (Hne : survivors F1 kept (row F1 i) <> []).
  { unfold group_decision in Hdec.
    destruct (Nat.eqb_spec (length (facet_group F1 (row F1 i))) 1) as [L|L].
    - injection Hdec as <-. intros E. rewrite E in L. discriminate.
    - destruct (Z.eqb_spec
        (Z.of_nat (length (consistent_occurrences F1 (row F1 i)
                             (representative (us F1) i))) -
         Z.of_nat (length (reversed_occurrences F1 (row F1 i)
                             (representative (us F1) i)))) 1) as [S1|S1].
      { injection Hdec as <-.
        destruct (consistent_occurrences F1 (row F1 i)
                    (representative (us F1) i)); simpl in *;
          [lia | discriminate]. }
      destruct (Z.eqb_spec
        (Z.of_nat (length (consistent_occurrences F1 (row F1 i)
                             (representative (us F1) i))) -
         Z.of_nat (length (reversed_occurrences F1 (row F1 i)
                             (representative (us F1) i)))) (-1)) as [S2|S2].
      { injection Hdec as <-.
        destruct (reversed_occurrences F1 (row F1 i)
                    (representative (us F1) i)); simpl in *;
          [lia | discriminate]. }
      destruct (Z.eqb_spec
        (Z.of_nat (length (consistent_occurrences F1 (row F1 i)
                             (representative (us F1) i))) -
         Z.of_nat (length (reversed_occurrences F1 (row F1 i)
                             (representative (us F1) i)))) 0);
        [lia | discriminate]. }
  destruct (survivors F1 kept (row F1 i)) as [|k l] eqn:E; [congruence|].
  exists k.
  apply (proj1 (filter_In (fun j => same_simplex (row F1 j) (row F1 i))
                  k kept)).
  fold (survivors F1 kept (row F1 i)). rewrite E. now left.
Qed.

Lemma kept_all_rows (Wr : list (Z * Z)) (F : list Face) :
  Z.of_nat (length F) < 2 ^ 31 ->
  kept_face_rows F (select_faces KeepAll Wr (length F)) = F.
Proof.
  intros Hsize.
  destruct (kept_rows_flat_map KeepAll Wr F [] (length F) Hsize) as [E _].
  rewrite E. simpl. rewrite flat_map_singleton. apply map_row_seq.
Qed.

Section PipelineInversion.

Context {CoordA CoordE CoordC : Type}.
Variable lib : Collaborators CoordA CoordE CoordC.

(** The steps of an operation that returns. *)
Lemma per_face_Ok (VA : Matrix CoordA) (FA : list Face)
    (VB : Matrix CoordA) (FB : list Face)
    (wind_num_op keep : Z -> Z -> Z) (resolve_fun : ResolveFunc)
    (s s' : State CoordC) :
  per_face_winding_number_binary_operation lib VA FA VB FB wind_num_op keep
    resolve_fun s = (Ok tt, s') ->
  exists V F CJ s1 Wr G J VC FC IM,
    resolve_intersections VA FA VB FB resolve_fun s = (Ok (V, F, CJ), s1) /\
    resolve_duplicated_faces (unique_simplices lib)
      (kept_face_rows F (select_faces keep Wr (length F)))
      (kept_face_index_rows CJ (select_faces keep Wr (length F)))
    = Ok (G, J) /\
    remove_unreferenced lib (map (map (assign_scalar lib)) V) G
    = Ok (VC, FC, IM) /\
    out_VC s' = VC /\ out_FC s' = FC.
Proof.
  unfold per_face_winding_number_binary_operation.
  unfold bind at 1.
  destruct (resolve_intersections VA FA VB FB resolve_fun s)
    as [[[[V F] CJ]|e] s1]; [|discriminate].
  unfold bind at 1. unfold invoke at 1.
  destruct (propagate_winding_numbers lib V F (labels_of (length FA) CJ))
    as [W|e]; [|discriminate].
  unfold bind at 1. unfold massert at 1.
  destruct (rassert (length (rows W) =? length F)%nat _); [|discriminate].
  unfold bind at 1.
  destruct (four_columns FB W _) as [[W4|e] s2]; [|discriminate].
  unfold bind at 1. unfold invoke at 1.
  destruct (resolve_duplicated_faces _ _ _) as [[G J]|e] eqn:Hdup;
    [|discriminate].
  unfold bind at 1. unfold invoke at 1.
  destruct (remove_unreferenced lib _ G) as [[[VC FC] IM]|e] eqn:Hru;
    [|discriminate].
  unfold assign_VC_FC. intros [= <-]. simpl.
  exists V, F, CJ, s1, (resulting_winding wind_num_op W4 (length F)),
         G, J, VC, FC, IM.
  repeat split; assumption.
Qed.


End PipelineInversion.



Section DegenerateFacets.

Context {CoordA CoordE CoordC : Type}.
Variable lib : Collaborators CoordA CoordE CoordC.

Lemma mesh_boolean_resolve_type (VA : Matrix CoordA) (FA : list Face)
    (VB : Matrix CoordA) (FB : list Face) (resolve_func : ResolveFunc) :
  mesh_boolean lib VA FA VB FB MESH_BOOLEAN_TYPE_RESOLVE resolve_func =
  per_face_winding_number_binary_operation lib VA FA VB FB
    (BinaryResolve lib) KeepAll resolve_func.
Proof. reflexivity. Qed.

(** Whatever the collaborators are: when a RESOLVE call succeeds, a facet
    of the resolver with a repeated index whose unordered triple occurs an
    odd number of times among the facets of the resolver gives an output
    facet with a repeated index. *)
Lemma degenerate_facet_reaches_output (VA : Matrix CoordA) (FA : list Face)
    (VB : Matrix CoordA) (FB : list Face) (resolve_func : ResolveFunc)
    (s s' : State CoordC)
    (V : Matrix CoordE) (F : list Face) (CJ : list Z) (s1 : State CoordC)
    (p : nat) :
  (forall F0, unique_simplices_spec F0 (unique_simplices lib F0)) ->
  remove_unreferenced_spec (remove_unreferenced lib (C := CoordC)) ->
  resolve_intersections VA FA VB FB resolve_func s = (Ok (V, F, CJ), s1) ->
  Z.of_nat (length F) < 2 ^ 31 ->
  Forall (in_bounds (length V)) F ->
  mesh_boolean lib VA FA VB FB MESH_BOOLEAN_TYPE_RESOLVE resolve_func s
    = (Ok tt, s') ->
  (p < length F)%nat ->
  ~ pairwise_distinct (row F p) ->
  Nat.odd (length (facet_group F (row F p))) = true ->
  exists f', In f' (out_FC s') /\ ~ pairwise_distinct f'.
Proof.
  intros Hus Hru Hres Hsize HF Hcall Hp Hdeg Hodd.
  rewrite mesh_boolean_resolve_type in Hcall.
  destruct (per_face_Ok lib VA FA VB FB _ KeepAll resolve_func s s' Hcall)
    as (V0 & F0 & CJ0 & s0 & Wr & G & J & VC & FC & IM &
        H1 & H2 & H3 & _ & HFC).
  rewrite HFC. clear HFC.
  rewrite Hres in H1. injection H1 as <- <- <- <-.
  rewrite (kept_all_rows Wr F Hsize) in H2.
  destruct (resolve_duplicated_faces_Ok _ F _ G J H2)
    as (kept & Hkept & -> & _).
  destruct (kept_faces_sorted _ F Hsize (Hus F) kept Hkept) as [Hlt _].
  rewrite Forall_forall in Hlt, HF.
  destruct (odd_group_survivor _ F kept p Hsize (Hus F) Hkept Hp Hodd)
    as (k & Hk & Hsame).
  assert (HGb : Forall (in_bounds
                  (length (map (map (assign_scalar lib)) V)))
                  (map (fun k => row F k) kept)).
  { rewrite length_map. apply Forall_forall. intros g Hg.
    apply in_map_iff in Hg. destruct Hg as (j & <- & Hj).
    apply HF, row_in, Hlt, Hj. }
  destruct (Hru _ _ VC FC IM HGb H3) as (r & -> & _).
  exists (map_face r (row F k)). split.
  - apply in_map, (in_map (fun k => row F k)), Hk.
  - intros Hd. apply pairwise_distinct_map_face_inv in Hd.
    apply Hdeg. exact (pairwise_distinct_same_simplex _ _ Hsame Hd).
Qed.

End DegenerateFacets.

(* ================================================================== *)
(** * Further properties of mesh_boolean.cpp *)
(* ================================================================== *)

(** ** Signed indices *)

(** X1. The signed indices of the source are a faithful encoding of a face
    and an orientation as long as the number of the face plus one fits an
    [int]: the face is read back by [abs(.) - 1], the orientation by the
    sign, and the value is never 0; this holds for the encoding of the
    boundary extraction (lines 240-245, 261-262) and for that of the
    duplicate resolution (lines 122, 130-137). For the face 2^31 - 1 both
    orientations are encoded as -2^31: the orientation is lost. *)
Theorem signed_index_round_trip :
  (forall (i : nat) (ori : bool),
     Z.of_nat i + 1 < 2 ^ 31 ->
     signed_index_to_index (index_to_signed_index i ori) = i /\
     (0 <? index_to_signed_index i ori) = ori /\
     (index_to_signed_index i ori <? 0) = negb ori /\
     face_of_signed (signed_face i ori) = i /\
     (0 <? signed_face i ori) = ori /\
     (signed_face i ori <? 0) = negb ori) /\
  (forall (i : nat) (ori : bool),
     Z.of_nat i + 1 = 2 ^ 31 ->
     index_to_signed_index i ori = - 2 ^ 31 /\
     signed_face i ori = - 2 ^ 31).
Proof.
  split.
  - intros i ori Hi.
    split; [apply (face_of_index_to_signed_index i ori Hi)|].
    split; [apply (index_to_signed_index_positive i ori Hi)|].
    split.
    { rewrite index_to_signed_index_small by assumption.
      destruct ori; simpl; [apply Z.ltb_ge | apply Z.ltb_lt]; lia. }
    split; [apply (face_of_signed_face i ori Hi)|].
    split; [apply (signed_face_positive i ori Hi)
           | apply (signed_face_negative i ori Hi)].
  - intros i ori Hi. unfold index_to_signed_index, signed_face.
    rewrite Hi. destruct ori; split; reflexivity.
Qed.

(** Face 6 with both orientations. *)
Lemma signed_index_round_trip_witness :
  signed_index_to_index (index_to_signed_index 6 false) = 6%nat /\
  (0 <? index_to_signed_index 6 false) = false /\
  (index_to_signed_index 6 false <? 0) = negb false /\
  face_of_signed (signed_face 6 false) = 6%nat /\
  (0 <? signed_face 6 false) = false /\
  (signed_face 6 false <? 0) = negb false.
Proof.
  apply (proj1 signed_index_round_trip 6%nat false). simpl; lia.
Defined.

(** ** The orientation test of lines 112-121 *)

Lemma consistent_iff (f u : Face) :
  consistent f u = true <->
  f = u \/ f = (col1 u, col2 u, col0 u) \/ f = (col2 u, col0 u, col1 u).
Proof.
  destruct f as [[a b] c], u as [[x y] z].
  unfold consistent, col0, col1, col2; simpl.
  rewrite !orb_true_iff, !andb_true_iff, !Z.eqb_eq. split.
  - intros [[[[-> ->] ->]|[[-> ->] ->]]|[[-> ->] ->]]; auto.
  - intros [H|[H|H]]; injection H as -> -> ->; auto.
Qed.

Lemma consistent_trans (f g h : Face) :
  consistent f g = true -> consistent g h = true -> consistent f h = true.
Proof.
  rewrite !consistent_iff.
  destruct f as [[a b] c], g as [[x y] z], h as [[p q] r].
  unfold col0, col1, col2; simpl.
  intros [H1|[H1|H1]] [H2|[H2|H2]];
    injection H1 as -> -> ->; injection H2 as -> -> ->; auto.
Qed.

Lemma consistent_same_simplex (f g : Face) :
  consistent f g = true -> same_simplex f g = true.
Proof.
  rewrite consistent_iff, same_simplex_sym, same_simplex_permutation3.
  destruct g as [[x y] z]. unfold permutation3, col0, col1, col2; simpl.
  intros [-> | [-> | ->]]; tauto.
Qed.

Lemma same_simplex_reverse (f : Face) : same_simplex (reverse f) f = true.
Proof.
  rewrite same_simplex_sym. apply same_simplex_permutation3.
  destruct f as [[a b] c]. unfold permutation3, reverse, col0, col1, col2.
  simpl. tauto.
Qed.

Lemma consistent_reverse_self (f : Face) :
  consistent (reverse f) f = true <-> ~ pairwise_distinct f.
Proof.
  destruct f as [[a b] c].
  unfold consistent, reverse, pairwise_distinct, col0, col1, col2; simpl.
  rewrite !orb_true_iff, !andb_true_iff, !Z.eqb_eq. split.
  - intros H (H1 & H2 & H3). lia.
  - intros H. lia.
Qed.

(** X2. The test [consistent] of the duplicate resolution compares
    orientations: it is an equivalence on rows, it relates only rows with
    the same unordered triple, and for a row [g] with three different
    indices a row with the triple of [g] is consistent with [g] iff its
    reverse is not. A row with a repeated index is consistent with its own
    reverse. *)
Theorem consistent_is_orientation :
  (forall f, consistent f f = true) /\
  (forall f g, consistent f g = consistent g f) /\
  (forall f g h, consistent f g = true -> consistent g h = true ->
                 consistent f h = true) /\
  (forall f g, consistent f g = true -> same_simplex f g = true) /\
  (forall f g, same_simplex f g = true -> pairwise_distinct g ->
               consistent (reverse f) g = negb (consistent f g)) /\
  (forall f, consistent (reverse f) f = true <-> ~ pairwise_distinct f).
Proof.
  split; [exact consistent_refl|]. split; [exact consistent_sym|].
  split; [exact consistent_trans|]. split; [exact consistent_same_simplex|].
  split; [|exact consistent_reverse_self].
  intros f g Hs Hd. rewrite same_simplex_sym in Hs.
  apply same_simplex_permutation3 in Hs.
  destruct g as [[x y] z].
  unfold permutation3, pairwise_distinct, col0, col1, col2 in *;
    simpl in *.
  destruct Hd as (H1 & H2 & H3).
  destruct Hs as [-> | [-> | [-> | [-> | [-> | ->]]]]];
    unfold consistent, reverse, col0, col1, col2; simpl;
    rewrite ?Z.eqb_refl;
    destruct (Z.eqb_spec x y), (Z.eqb_spec y x), (Z.eqb_spec y z),
             (Z.eqb_spec z y), (Z.eqb_spec x z), (Z.eqb_spec z x);
    try lia; reflexivity.
Qed.

(** A row, a rotation of it and a reflection of it. *)
Lemma consistent_is_orientation_witness :
  consistent (4, 7, 5) (7, 5, 4) = true /\
  consistent (reverse (5, 7, 4)) (7, 5, 4) =
  negb (consistent (5, 7, 4) (7, 5, 4)).
Proof.
  split; [reflexivity|].
  apply (proj1 (proj2 (proj2 (proj2 (proj2 consistent_is_orientation))))
           (5, 7, 4) (7, 5, 4)).
  - reflexivity.
  - unfold pairwise_distinct, col0, col1, col2; simpl; lia.
Defined.

(** ** The merged mesh (lines 79-82) *)

Lemma in_bounds_weaken (n m : nat) (f : Face) :
  (n <= m)%nat -> in_bounds n f -> in_bounds m f.
Proof. unfold in_bounds. intros H (H0 & H1 & H2). lia. Qed.

(** X3. When the facets of A and of B are within the bounds of their
    vertices and the merged mesh has fewer than 2^31 vertices, the mesh
    handed to the resolver is well formed: it has all the facets of both
    meshes, every index is within the merged vertices, a facet of B with
    three different indices still has three different indices, and no facet
    of A has the unordered triple of a shifted facet of B (the merge creates
    no duplicate between A and B). *)
Theorem merged_mesh_well_formed {CoordA : Type}
    (VA VB : Matrix CoordA) (FA FB : list Face) :
  Z.of_nat (length VA) + Z.of_nat (length VB) < 2 ^ 31 ->
  Forall (in_bounds (length VA)) FA ->
  Forall (in_bounds (length VB)) FB ->
  length (merged_faces (length VA) FA FB) = (length FA + length FB)%nat /\
  Forall (in_bounds (length (merged_vertices VA VB)))
         (merged_faces (length VA) FA FB) /\
  (forall k, (k < length FB)%nat -> pairwise_distinct (row FB k) ->
     pairwise_distinct (row (merged_faces (length VA) FA FB)
                            (length FA + k))) /\
  (forall a b, (a < length FA)%nat ->
     (length FA <= b < length FA + length FB)%nat ->
     same_simplex (row (merged_faces (length VA) FA FB) a)
                  (row (merged_faces (length VA) FA FB) b) = false).
Proof.
  intros Hn HA HB.
  assert (HF : merged_faces (length VA) FA FB =
               FA ++ map (map_face (fun a => a + Z.of_nat (length VA))) FB).
  { unfold merged_faces. f_equal. apply map_ext_in. intros f Hf.
    rewrite Forall_forall in HB. destruct (HB f Hf) as (H0 & H1 & H2).
    unfold map_face.
    now rewrite !(shift_index_small (length VA) (length VB)). }
  rewrite HF. unfold merged_vertices. rewrite !length_app, length_map.
  assert (Hshift : forall k, (k < length FB)%nat ->
            row (FA ++ map (map_face (fun a => a + Z.of_nat (length VA))) FB)
                (length FA + k)
            = map_face (fun a => a + Z.of_nat (length VA)) (row FB k)).
  { intros k Hk. unfold row at 1. rewrite app_nth2_plus.
    now apply row_map_face. }
  split; [reflexivity|]. split; [|split].
  - apply Forall_app. split.
    + eapply Forall_impl; [|exact HA]. intros f.
      apply in_bounds_weaken. lia.
    + apply Forall_forall. intros g Hg. apply in_map_iff in Hg.
      destruct Hg as (f & <- & Hf). rewrite Forall_forall in HB.
      destruct (HB f Hf) as (H0 & H1 & H2).
      unfold in_bounds, map_face, col0, col1, col2 in *; simpl. lia.
  - intros k Hk Hd. rewrite Hshift by assumption.
    apply pairwise_distinct_map_face; [|assumption]. intros; lia.
  - intros a b Ha Hb.
    replace b with (length FA + (b - length FA))%nat by lia.
    rewrite Hshift by lia.
    unfold row at 1. rewrite app_nth1 by assumption.
    fold (row FA a).
    rewrite Forall_forall in HA, HB.
    pose proof (HA (row FA a) (row_in FA a Ha)) as (A0 & A1 & A2).
    pose proof (HB (row FB (b - length FA))
                   (row_in FB (b - length FA) ltac:(lia))) as (B0 & B1 & B2).
    destruct (same_simplex _ _) eqn:E; [|reflexivity].
    apply same_simplex_permutation3 in E.
    destruct (row FA a) as [[x y] z], (row FB (b - length FA)) as [[p q] r].
    unfold permutation3, map_face, col0, col1, col2 in *; simpl in *.
    destruct E as [E|[E|[E|[E|[E|E]]]]]; injection E; intros; lia.
Qed.

(** Two tetrahedra with four vertices each. *)
Lemma merged_mesh_well_formed_witness :
  length (merged_faces (length example_VA) example_FA example_FA) = 8%nat /\
  Forall (in_bounds (length (merged_vertices example_VA example_VB)))
         (merged_faces (length example_VA) example_FA example_FA).
Proof.
  assert (Hb : Forall (in_bounds 4) example_FA)
    by (repeat (apply Forall_cons || apply Forall_nil);
        unfold in_bounds, col0, col1, col2; simpl; lia).
  destruct (merged_mesh_well_formed example_VA example_VB example_FA
              example_FA ltac:(simpl; lia) Hb Hb) as (H1 & H2 & _).
  split; [exact H1 | exact H2].
Defined.

(** ** The table of winding numbers (lines 219-237) *)

(** X4. When the step of lines 220-227 succeeds the table has four columns
    and as many rows as before; the two columns of solid A are as the
    propagator returned them, and in a padded table (two columns returned)
    the two columns of solid B are zero, so each side of a facet is reduced
    from the pair (winding number of A, 0). *)
Theorem four_columns_shape {CoordC : Type}
    (FB : list Face) (W W' : MatrixXi) (s s' : State CoordC) :
  well_formed_table W ->
  four_columns FB W s = (Ok W', s') ->
  cols W' = 4 /\ well_formed_table W' /\
  length (rows W') = length (rows W) /\
  forall i, (i < length (rows W))%nat ->
    coeff W' i 0 = coeff W i 0 /\ coeff W' i 1 = coeff W i 1 /\
    (cols W = 2 -> coeff W' i 2 = 0 /\ coeff W' i 3 = 0) /\
    (cols W = 4 -> coeff W' i 2 = coeff W i 2 /\ coeff W' i 3 = coeff W i 3).
Proof.
  intros Hwf. unfold four_columns, bind, massert, ret, rassert.
  destruct (Z.eqb_spec (cols W) 2) as [E|E].
  - destruct FB as [|f FB']; simpl; [|discriminate].
    intros [= <- <-]. unfold pad_two_columns; simpl.
    unfold well_formed_table in *; simpl.
    rewrite length_map. repeat split; try reflexivity.
    + apply Forall_forall. intros r' Hr'. apply in_map_iff in Hr'.
      destruct Hr' as (r & <- & Hr). rewrite Forall_forall in Hwf.
      specialize (Hwf r Hr). rewrite length_app. simpl. lia.
    + unfold coeff; simpl.
      rewrite (nth_map_lt _ (rows W) i [] []) by assumption.
      rewrite Forall_forall in Hwf.
      specialize (Hwf _ (nth_In (rows W) [] H)).
      apply app_nth1. lia.
    + unfold coeff; simpl.
      rewrite (nth_map_lt _ (rows W) i [] []) by assumption.
      rewrite Forall_forall in Hwf.
      specialize (Hwf _ (nth_In (rows W) [] H)).
      apply app_nth1. lia.
    + unfold coeff; simpl.
      rewrite (nth_map_lt _ (rows W) i [] []) by assumption.
      rewrite Forall_forall in Hwf.
      specialize (Hwf _ (nth_In (rows W) [] H)).
      rewrite app_nth2 by lia.
      replace (2 - length (nth i (rows W) []))%nat with 0%nat by lia.
      reflexivity.
    + unfold coeff; simpl.
      rewrite (nth_map_lt _ (rows W) i [] []) by assumption.
      rewrite Forall_forall in Hwf.
      specialize (Hwf _ (nth_In (rows W) [] H)).
      rewrite app_nth2 by lia.
      replace (3 - length (nth i (rows W) []))%nat with 1%nat by lia.
      reflexivity.
    + lia.
    + lia.
  - destruct (Z.eqb_spec (cols W) 4) as [E4|E4]; simpl; [|discriminate].
    intros [= <- <-]. repeat split; try assumption; try reflexivity; lia.
Qed.

(** A table of two columns for a call without facets of B. *)
Lemma four_columns_shape_witness :
  let W := {| cols := 2; rows := [[0; 1]; [2; 3]] |} in
  four_columns (CoordC := Z) [] W empty_state
  = (Ok {| cols := 4; rows := [[0; 1; 0; 0]; [2; 3; 0; 0]] |}, empty_state) /\
  forall i, (i < 2)%nat ->
    coeff {| cols := 4; rows := [[0; 1; 0; 0]; [2; 3; 0; 0]] |} i 0
      = coeff W i 0 /\
    coeff {| cols := 4; rows := [[0; 1; 0; 0]; [2; 3; 0; 0]] |} i 1
      = coeff W i 1 /\
    (cols W = 2 ->
     coeff {| cols := 4; rows := [[0; 1; 0; 0]; [2; 3; 0; 0]] |} i 2 = 0 /\
     coeff {| cols := 4; rows := [[0; 1; 0; 0]; [2; 3; 0; 0]] |} i 3 = 0) /\
    (cols W = 4 ->
     coeff {| cols := 4; rows := [[0; 1; 0; 0]; [2; 3; 0; 0]] |} i 2
       = coeff W i 2 /\
     coeff {| cols := 4; rows := [[0; 1; 0; 0]; [2; 3; 0; 0]] |} i 3
       = coeff W i 3).
Proof.
  intros W. split; [reflexivity|].
  apply (four_columns_shape (CoordC := Z) [] W
           {| cols := 4; rows := [[0; 1; 0; 0]; [2; 3; 0; 0]] |}
           empty_state empty_state).
  - repeat (apply Forall_cons || apply Forall_nil); reflexivity.
  - reflexivity.
Defined.

(** X5. A table with a number of rows other than the number of facets of
    the resolver, or with a number of columns other than 2 and 4, stops the
    operation on the assertion of line 219 or of line 226: nothing is
    classified, [unique_simplices] and [remove_unreferenced] are not called
    and the outputs are those the resolver left. *)
Theorem malformed_table_fails {CoordA CoordE CoordC : Type}
    (lib : Collaborators CoordA CoordE CoordC)
    (VA : Matrix CoordA) (FA : list Face) (VB : Matrix CoordA)
    (FB : list Face) (wind_num_op keep : Z -> Z -> Z)
    (resolve_fun : ResolveFunc) (s s1 : State CoordC)
    (V : Matrix CoordE) (F : list Face) (CJ : list Z) (W : MatrixXi) :
  resolve_intersections VA FA VB FB resolve_fun s = (Ok (V, F, CJ), s1) ->
  propagate_winding_numbers lib V F (labels_of (length FA) CJ) = Ok W ->
  (length (rows W) <> length F ->
   per_face_winding_number_binary_operation lib VA FA VB FB wind_num_op keep
     resolve_fun s
   = (Err (AssertionFailed "W.rows() == num_faces"),
      mkState (out_VC s1) (out_FC s1) (out_J s1)
              (calls s1 ++ [Call_propagate_winding_numbers]))) /\
  (length (rows W) = length F -> cols W <> 2 -> cols W <> 4 ->
   per_face_winding_number_binary_operation lib VA FA VB FB wind_num_op keep
     resolve_fun s
   = (Err (AssertionFailed "W.cols() == 4"),
      mkState (out_VC s1) (out_FC s1) (out_J s1)
              (calls s1 ++ [Call_propagate_winding_numbers]))).
Proof.
  intros Hres Hprop. split.
  - intros Hrows. unfold per_face_winding_number_binary_operation.
    unfold bind at 1. rewrite Hres.
    unfold bind at 1. unfold invoke at 1. rewrite Hprop.
    unfold bind at 1. unfold massert at 1.
    destruct (Nat.eqb_spec (length (rows W)) (length F)); [contradiction|].
    reflexivity.
  - intros Hrows H2 H4. unfold per_face_winding_number_binary_operation.
    unfold bind at 1. rewrite Hres.
    unfold bind at 1. unfold invoke at 1. rewrite Hprop.
    unfold bind at 1. unfold massert at 1. rewrite Hrows, Nat.eqb_refl.
    simpl.
    unfold bind at 1. unfold four_columns.
    destruct (Z.eqb_spec (cols W) 2); [contradiction|].
    unfold bind at 1. unfold massert, rassert.
    destruct (Z.eqb_spec (cols W) 4); [contradiction|]. reflexivity.
Qed.

(** A propagator that returns three columns for the tetrahedron. *)
Lemma malformed_table_fails_witness :
  per_face_winding_number_binary_operation example_lib_three_columns
    example_VA example_FA [] [] BinaryUnion KeepInside
    (igl_resolve example_lib_three_columns) empty_state
  = (Err (AssertionFailed "W.cols() == 4"),
     mkState [] [] []
       [Call_resolve_func; Call_remesh_self_intersections;
        Call_remove_unreferenced; Call_propagate_winding_numbers]).
Proof.
  apply (proj2 (malformed_table_fails example_lib_three_columns
                  example_VA example_FA [] [] BinaryUnion KeepInside
                  (igl_resolve example_lib_three_columns) empty_state
                  (mkState [] [] []
                     [Call_resolve_func; Call_remesh_self_intersections;
                      Call_remove_unreferenced])
                  example_VA example_FA [0; 1; 2; 3]
                  {| cols := 3; rows := map (fun _ => [0; 0; 0]) example_FA |}
                  eq_refl eq_refl)).
  - reflexivity.
  - discriminate.
  - discriminate.
Defined.

(** ** What a call assigns and which collaborators it calls *)

Lemma quiet_ret {C A} (a : A) : quiet (@ret C A a).
Proof. intros s. unfold ret; simpl. auto. Qed.

Lemma quiet_throw {C A} (what : string) : quiet (@throw C A what).
Proof. intros s. unfold throw; simpl. auto. Qed.

Lemma quiet_massert {C} (c : bool) (condition : string) :
  quiet (@massert C c condition).
Proof. intros s. unfold massert; simpl. auto. Qed.

Lemma quiet_invoke {C A} (c : call) (r : result A) : quiet (@invoke C A c r).
Proof. intros s. unfold invoke; simpl. auto. Qed.

Lemma quiet_bind {C A B} (m : M C A) (k : A -> M C B) :
  quiet m -> (forall a, quiet (k a)) -> quiet (bind m k).
Proof.
  intros Hm Hk s. unfold bind. destruct (Hm s) as (H1 & H2 & H3).
  destruct (m s) as [[a|e] s1]; simpl in *; [|auto].
  destruct (Hk a s1) as (K1 & K2 & K3). repeat split; congruence.
Qed.

Lemma atomic_quiet {C A} (m : M C A) : quiet m -> atomic m.
Proof. intros H s. destruct (H s) as (H1 & H2 & H3). auto. Qed.

Lemma atomic_assign {C} (VC : Matrix C) (FC : list Face) :
  atomic (assign_VC_FC VC FC).
Proof.
  intros s. unfold assign_VC_FC; simpl. split; [reflexivity|].
  intros e H. discriminate H.
Qed.

Lemma atomic_bind {C A B} (m : M C A) (k : A -> M C B) :
  quiet m -> (forall a, atomic (k a)) -> atomic (bind m k).
Proof.
  intros Hm Hk s. unfold bind. destruct (Hm s) as (H1 & H2 & H3).
  destruct (m s) as [[a|e] s1]; simpl in *; [|auto].
  destruct (Hk a s1) as (K1 & K2). split; [congruence|].
  intros e He. destruct (K2 e He). split; congruence.
Qed.

Lemma call_trace_ret {C A} (a : A) : call_trace (@ret C A a) [].
Proof.
  intros s. exists 0%nat. unfold ret; simpl.
  rewrite app_nil_r. auto.
Qed.

Lemma call_trace_massert {C} (c : bool) (condition : string) :
  call_trace (@massert C c condition) [].
Proof.
  intros s. exists 0%nat. unfold massert; simpl.
  rewrite app_nil_r. auto.
Qed.

Lemma call_trace_assign {C} (VC : Matrix C) (FC : list Face) :
  call_trace (assign_VC_FC VC FC) [].
Proof.
  intros s. exists 0%nat. unfold assign_VC_FC; simpl.
  rewrite app_nil_r. auto.
Qed.

Lemma call_trace_throw {C A} (what : string) (l : list call) :
  call_trace (@throw C A what) l.
Proof.
  intros s. exists 0%nat. unfold throw; simpl. rewrite app_nil_r.
  split; [lia|]. split; [reflexivity|]. intros a H. discriminate H.
Qed.

Lemma call_trace_invoke {C A} (c : call) (r : result A) :
  call_trace (@invoke C A c r) [c].
Proof.
  intros s. exists 1%nat. unfold invoke; simpl. auto.
Qed.

Lemma call_trace_bind {C A B} (m : M C A) (k : A -> M C B)
    (l1 l2 : list call) :
  call_trace m l1 -> (forall a, call_trace (k a) l2) ->
  call_trace (bind m k) (l1 ++ l2).
Proof.
  intros Hm Hk s. unfold bind.
  destruct (Hm s) as (k1 & Hk1 & Hc1 & Hok1).
  destruct (m s) as [[a|e] s1]; simpl in *.
  - specialize (Hok1 a eq_refl). subst k1.
    destruct (Hk a s1) as (k2 & Hk2 & Hc2 & Hok2).
    exists (length l1 + k2)%nat. rewrite length_app. split; [lia|]. split.
    + rewrite Hc2, Hc1, firstn_all, firstn_app_2, app_assoc. reflexivity.
    + intros b Hb. rewrite (Hok2 b Hb). reflexivity.
  - exists k1. rewrite length_app. split; [lia|]. split.
    + rewrite Hc1, firstn_app.
      replace (k1 - length l1)%nat with 0%nat by lia.
      now rewrite firstn_0, app_nil_r.
    + intros b Hb. discriminate Hb.
Qed.

Section Effects.

Context {CoordA CoordE CoordC : Type}.
Variable lib : Collaborators CoordA CoordE CoordC.

Lemma quiet_igl_resolve (V : Matrix CoordA) (F : list Face) :
  quiet (igl_resolve (CoordC := CoordC) lib V F).
Proof.
  unfold igl_resolve.
  apply quiet_bind; [apply quiet_invoke|]. intros [[[Vr Fr] J] Iv].
  apply quiet_bind; [apply quiet_massert|]. intros _.
  apply quiet_bind; [apply quiet_invoke|]. intros [[Vo Fo] UIM].
  apply quiet_ret.
Qed.

Lemma call_trace_igl_resolve (V : Matrix CoordA) (F : list Face) :
  call_trace (igl_resolve (CoordC := CoordC) lib V F) calls_of_igl_resolve.
Proof.
  unfold igl_resolve.
  apply (call_trace_bind _ _ [Call_remesh_self_intersections]
           [Call_remove_unreferenced]); [apply call_trace_invoke|].
  intros [[[Vr Fr] J] Iv].
  apply (call_trace_bind _ _ [] [Call_remove_unreferenced]);
    [apply call_trace_massert|]. intros _.
  apply (call_trace_bind _ _ [Call_remove_unreferenced] []);
    [apply call_trace_invoke|]. intros [[Vo Fo] UIM].
  apply call_trace_ret.
Qed.

Lemma quiet_four_columns (FB : list Face) (W : MatrixXi) :
  quiet (four_columns (CoordC := CoordC) FB W).
Proof.
  unfold four_columns. destruct (cols W =? 2);
    (apply quiet_bind; [apply quiet_massert|]; intros _; apply quiet_ret).
Qed.

Lemma call_trace_four_columns (FB : list Face) (W : MatrixXi) :
  call_trace (four_columns (CoordC := CoordC) FB W) [].
Proof.
  unfold four_columns. destruct (cols W =? 2);
    (apply (call_trace_bind _ _ [] []); [apply call_trace_massert|];
     intros _; apply call_trace_ret).
Qed.

Variable resolve_func : @ResolveFunc CoordA CoordE CoordC.

Lemma atomic_per_face (VA : Matrix CoordA) (FA : list Face)
    (VB : Matrix CoordA) (FB : list Face) (wind_num_op keep : Z -> Z -> Z) :
  (forall V F, quiet (resolve_func V F)) ->
  atomic (per_face_winding_number_binary_operation lib VA FA VB FB
            wind_num_op keep resolve_func).
Proof.
  intros Hq.
  unfold per_face_winding_number_binary_operation, resolve_intersections.
  apply atomic_bind.
  { apply quiet_bind; [apply quiet_invoke|]. intros _. apply Hq. }
  intros [[V F] CJ].
  apply atomic_bind; [apply quiet_invoke|]. intros W.
  apply atomic_bind; [apply quiet_massert|]. intros _.
  apply atomic_bind; [apply quiet_four_columns|]. intros W4.
  apply atomic_bind; [apply quiet_invoke|]. intros [G J].
  apply atomic_bind; [apply quiet_invoke|]. intros [[VC FC] newIM].
  apply atomic_assign.
Qed.

Lemma atomic_mesh_boolean (VA : Matrix CoordA) (FA : list Face)
    (VB : Matrix CoordA) (FB : list Face) (type : Z) :
  (forall V F, quiet (resolve_func V F)) ->
  atomic (mesh_boolean lib VA FA VB FB type resolve_func).
Proof.
  intros Hq. unfold mesh_boolean.
  repeat (match goal with
          | |- atomic (if ?c then _ else _) => destruct c
          end; [now apply atomic_per_face|]).
  apply atomic_quiet, quiet_throw.
Qed.

Lemma call_trace_per_face (VA : Matrix CoordA) (FA : list Face)
    (VB : Matrix CoordA) (FB : list Face) (wind_num_op keep : Z -> Z -> Z)
    (lr : list call) :
  (forall V F, call_trace (resolve_func V F) lr) ->
  call_trace (per_face_winding_number_binary_operation lib VA FA VB FB
                wind_num_op keep resolve_func)
             (Call_resolve_func :: lr ++ calls_after_resolver).
Proof.
  intros Hr.
  unfold per_face_winding_number_binary_operation, resolve_intersections.
  apply (call_trace_bind _ _ (Call_resolve_func :: lr) calls_after_resolver).
  { apply (call_trace_bind _ _ [Call_resolve_func] lr);
      [apply call_trace_invoke|]. intros _. apply Hr. }
  intros [[V F] CJ].
  apply (call_trace_bind _ _ [Call_propagate_winding_numbers]
           [Call_unique_simplices; Call_remove_unreferenced]);
    [apply call_trace_invoke|]. intros W.
  apply (call_trace_bind _ _ []
           [Call_unique_simplices; Call_remove_unreferenced]);
    [apply call_trace_massert|]. intros _.
  apply (call_trace_bind _ _ []
           [Call_unique_simplices; Call_remove_unreferenced]);
    [apply call_trace_four_columns|]. intros W4.
  apply (call_trace_bind _ _ [Call_unique_simplices]
           [Call_remove_unreferenced]);
    [apply call_trace_invoke|]. intros [G J].
  apply (call_trace_bind _ _ [Call_remove_unreferenced] []);
    [apply call_trace_invoke|]. intros [[VC FC] newIM].
  apply call_trace_assign.
Qed.

Lemma call_trace_mesh_boolean (VA : Matrix CoordA) (FA : list Face)
    (VB : Matrix CoordA) (FB : list Face) (type : Z) (lr : list call) :
  (forall V F, call_trace (resolve_func V F) lr) ->
  call_trace (mesh_boolean lib VA FA VB FB type resolve_func)
             (Call_resolve_func :: lr ++ calls_after_resolver).
Proof.
  intros Hr. unfold mesh_boolean.
  repeat (match goal with
          | |- call_trace (if ?c then _ else _) _ => destruct c
          end; [now apply call_trace_per_face|]).
  apply call_trace_throw.
Qed.

End Effects.

(** X6. A call of [mesh_boolean] that fails, for whatever reason (an
    unrecognized operation, a failing collaborator, an assertion), leaves
    the outputs [VC] and [FC] as they were: they are assigned at the very
    end of a successful call only. This holds with every resolver that does
    not assign them itself, and with the default resolver. *)
Theorem failure_leaves_outputs {CoordA CoordE CoordC : Type}
    (lib : Collaborators CoordA CoordE CoordC)
    (VA : Matrix CoordA) (FA : list Face) (VB : Matrix CoordA)
    (FB : list Face) (type : Z) (s : State CoordC) (e : error) :
  (forall resolve_func : ResolveFunc,
     (forall V F, quiet (resolve_func V F)) ->
     fst (mesh_boolean lib VA FA VB FB type resolve_func s) = Err e ->
     out_VC (snd (mesh_boolean lib VA FA VB FB type resolve_func s))
       = out_VC s /\
     out_FC (snd (mesh_boolean lib VA FA VB FB type resolve_func s))
       = out_FC s) /\
  (fst (mesh_boolean_J lib VA FA VB FB type s) = Err e ->
   out_VC (snd (mesh_boolean_J lib VA FA VB FB type s)) = out_VC s /\
   out_FC (snd (mesh_boolean_J lib VA FA VB FB type s)) = out_FC s) /\
  (fst (mesh_boolean_VF lib VA FA VB FB type s) = Err e ->
   out_VC (snd (mesh_boolean_VF lib VA FA VB FB type s)) = out_VC s /\
   out_FC (snd (mesh_boolean_VF lib VA FA VB FB type s)) = out_FC s).
Proof.
  split; [|split].
  - intros resolve_func Hq He.
    apply (proj2 (atomic_mesh_boolean lib resolve_func VA FA VB FB type Hq s)
             e He).
  - intros He. unfold mesh_boolean_J in *.
    apply (proj2 (atomic_mesh_boolean lib (igl_resolve lib) VA FA VB FB type
                    (quiet_igl_resolve lib) s) e He).
  - unfold mesh_boolean_VF, mesh_boolean_J.
    pose proof (atomic_mesh_boolean lib (igl_resolve lib) VA FA VB FB type
                  (quiet_igl_resolve lib)
                  (mkState (out_VC s) (out_FC s) [] (calls s))) as [_ H].
    destruct (mesh_boolean lib VA FA VB FB type (igl_resolve lib)
                (mkState (out_VC s) (out_FC s) [] (calls s))) as [r s1].
    simpl in *. intros He. apply (H e He).
Qed.

(** A propagator that returns three columns, on outputs already filled. *)
Lemma failure_leaves_outputs_witness :
  fst (mesh_boolean_J example_lib_three_columns example_VA example_FA [] []
         MESH_BOOLEAN_TYPE_UNION (mkState [[7; 7; 7]] [(0, 0, 0)] [3] []))
  = Err (AssertionFailed "W.cols() == 4") /\
  out_VC (snd (mesh_boolean_J example_lib_three_columns example_VA example_FA
                 [] [] MESH_BOOLEAN_TYPE_UNION
                 (mkState [[7; 7; 7]] [(0, 0, 0)] [3] []))) = [[7; 7; 7]] /\
  out_FC (snd (mesh_boolean_J example_lib_three_columns example_VA example_FA
                 [] [] MESH_BOOLEAN_TYPE_UNION
                 (mkState [[7; 7; 7]] [(0, 0, 0)] [3] []))) = [(0, 0, 0)].
Proof.
  split; [reflexivity|].
  apply (proj1 (proj2 (failure_leaves_outputs example_lib_three_columns
                         example_VA example_FA [] [] MESH_BOOLEAN_TYPE_UNION
                         (mkState [[7; 7; 7]] [(0, 0, 0)] [3] [])
                         (AssertionFailed "W.cols() == 4")))).
  reflexivity.
Defined.

(** X7. No call of [mesh_boolean] assigns the output [J]: the provenance
    computed by the duplicate resolution goes to the vector [J] declared in
    the last block (line 274), and the output argument is, after a
    successful call too, what the caller passed. *)
Theorem output_J_never_assigned {CoordA CoordE CoordC : Type}
    (lib : Collaborators CoordA CoordE CoordC)
    (VA : Matrix CoordA) (FA : list Face) (VB : Matrix CoordA)
    (FB : list Face) (type : Z) (s : State CoordC) :
  (forall resolve_func : ResolveFunc,
     (forall V F, quiet (resolve_func V F)) ->
     out_J (snd (mesh_boolean lib VA FA VB FB type resolve_func s))
       = out_J s) /\
  out_J (snd (mesh_boolean_J lib VA FA VB FB type s)) = out_J s.
Proof.
  split.
  - intros resolve_func Hq.
    apply (proj1 (atomic_mesh_boolean lib resolve_func VA FA VB FB type Hq
                    s)).
  - unfold mesh_boolean_J.
    apply (proj1 (atomic_mesh_boolean lib (igl_resolve lib) VA FA VB FB type
                    (quiet_igl_resolve lib) s)).
Qed.

(** The union of two tetrahedra, called with [J] holding 3. *)
Lemma output_J_never_assigned_witness :
  fst (mesh_boolean example_lib example_VA example_FA example_VB example_FA
         MESH_BOOLEAN_TYPE_UNION (igl_resolve example_lib)
         (mkState [] [] [3] [])) = Ok tt /\
  length (out_FC (snd (mesh_boolean example_lib example_VA example_FA
                         example_VB example_FA MESH_BOOLEAN_TYPE_UNION
                         (igl_resolve example_lib)
                         (mkState [] [] [3] [])))) = 8%nat /\
  out_J (snd (mesh_boolean example_lib example_VA example_FA example_VB
                example_FA MESH_BOOLEAN_TYPE_UNION (igl_resolve example_lib)
                (mkState [] [] [3] []))) = [3].
Proof.
  split; [reflexivity|]. split; [reflexivity|].
  apply (proj1 (output_J_never_assigned example_lib example_VA example_FA
                  example_VB example_FA MESH_BOOLEAN_TYPE_UNION
                  (mkState [] [] [3] [])) (igl_resolve example_lib)).
  apply quiet_igl_resolve.
Defined.

(** X8. The collaborators are called in one fixed order, each step once:
    the resolver (with the default resolver: the remesher, then
    [remove_unreferenced]), the propagator, [unique_simplices] and
    [remove_unreferenced]. A successful call has made all these calls; a
    failing call has made the first of them, up to the step that failed,
    and none of the later ones. *)
Theorem collaborators_called_in_order {CoordA CoordE CoordC : Type}
    (lib : Collaborators CoordA CoordE CoordC)
    (VA : Matrix CoordA) (FA : list Face) (VB : Matrix CoordA)
    (FB : list Face) (type : Z) (s : State CoordC) :
  (forall (resolve_func : ResolveFunc) (lr : list call),
     (forall V F, call_trace (resolve_func V F) lr) ->
     exists k,
       calls (snd (mesh_boolean lib VA FA VB FB type resolve_func s)) =
       calls s ++ firstn k (Call_resolve_func :: lr ++ calls_after_resolver)
       /\
       (fst (mesh_boolean lib VA FA VB FB type resolve_func s) = Ok tt ->
        calls (snd (mesh_boolean lib VA FA VB FB type resolve_func s)) =
        calls s ++ Call_resolve_func :: lr ++ calls_after_resolver)) /\
  exists k,
    calls (snd (mesh_boolean_J lib VA FA VB FB type s)) =
    calls s ++
    firstn k [Call_resolve_func; Call_remesh_self_intersections;
              Call_remove_unreferenced; Call_propagate_winding_numbers;
              Call_unique_simplices; Call_remove_unreferenced] /\
    (fst (mesh_boolean_J lib VA FA VB FB type s) = Ok tt -> k = 6%nat).
Proof.
  split.
  - intros resolve_func lr Hr.
    destruct (call_trace_mesh_boolean lib resolve_func VA FA VB FB type lr
                Hr s) as (k & Hk & Hc & Hok).
    exists k. split; [exact Hc|]. intros Hsucc.
    rewrite Hc, (Hok tt Hsucc), firstn_all. reflexivity.
  - unfold mesh_boolean_J.
    destruct (call_trace_mesh_boolean lib (igl_resolve lib) VA FA VB FB type
                calls_of_igl_resolve (call_trace_igl_resolve lib) s)
      as (k & Hk & Hc & Hok).
    exists k. split; [exact Hc|]. intros Hsucc. apply (Hok tt Hsucc).
Qed.

(** The union of two tetrahedra, from an empty log. *)
Lemma collaborators_called_in_order_witness :
  exists k,
    calls (snd (mesh_boolean example_lib example_VA example_FA example_VB
                  example_FA MESH_BOOLEAN_TYPE_UNION (igl_resolve example_lib)
                  empty_state)) =
    calls empty_state ++
    firstn k (Call_resolve_func :: calls_of_igl_resolve ++ calls_after_resolver)
    /\
    (fst (mesh_boolean example_lib example_VA example_FA example_VB
            example_FA MESH_BOOLEAN_TYPE_UNION (igl_resolve example_lib)
            empty_state) = Ok tt ->
     calls (snd (mesh_boolean example_lib example_VA example_FA example_VB
                   example_FA MESH_BOOLEAN_TYPE_UNION
                   (igl_resolve example_lib) empty_state)) =
     calls empty_state ++
     Call_resolve_func :: calls_of_igl_resolve ++ calls_after_resolver).
Proof.
  apply (proj1 (collaborators_called_in_order example_lib example_VA
                  example_FA example_VB example_FA MESH_BOOLEAN_TYPE_UNION
                  empty_state) (igl_resolve example_lib)
               calls_of_igl_resolve).
  apply call_trace_igl_resolve.
Defined.

(** ** More on the duplicate resolution (lines 91-165) *)

(** X9. Whenever [resolve_duplicated_faces] returns, the number of
    occurrences of a group decides how many of its facets survive: a group
    with an odd number of occurrences keeps exactly one of its facets, a
    group with an even number of occurrences keeps none. *)
Theorem survivors_by_parity
    (us : list Face -> Simplices) (F1 : list Face) (kept : list nat) :
  Z.of_nat (length F1) < 2 ^ 31 ->
  unique_simplices_spec F1 (us F1) ->
  kept_faces_of us F1 = Ok kept ->
  forall i, (i < length F1)%nat ->
    (Nat.odd (length (facet_group F1 (row F1 i))) = true ->
     exists k, survivors F1 kept (row F1 i) = [k] /\
               In k (facet_group F1 (row F1 i))) /\
    (Nat.even (length (facet_group F1 (row F1 i))) = true ->
     survivors F1 kept (row F1 i) = []).
Proof.
  intros Hsize Hspec Hkept i Hi.
  pose proof (kept_faces_of_group us F1 Hsize Hspec kept i Hkept Hi) as Hdec.
  pose proof (group_decision_subset _ _ _ _
                (incl_filter _ _) (incl_filter _ _) Hdec) as Hincl.
  pose proof (occurrences_length F1 (row F1 i) (representative (us F1) i))
    as Hsum.
  unfold group_decision in Hdec.
  set (mem := facet_group F1 (row F1 i)) in *.
  set (cons := consistent_occurrences F1 (row F1 i)
                 (representative (us F1) i)) in *.
  set (rev := reversed_occurrences F1 (row F1 i)
                (representative (us F1) i)) in *.
  set (surv := survivors F1 kept (row F1 i)) in *.
  assert (Hone : forall l, (0 < length l)%nat ->
                           exists k : nat, firstn 1 l = [k])
    by (intros [|k l] Hl; simpl in *; [lia | now exists k]).
  split.
  - intros Hodd. apply Nat.odd_spec in Hodd. destruct Hodd as [h Hh].
    assert (Hk : exists k, surv = [k]).
    { destruct (Nat.eqb_spec (length mem) 1) as [L|L].
      - injection Hdec as <-.
        destruct mem as [|k [|? ?]]; simpl in L; try lia. now exists k.
      - destruct (Z.eqb_spec (Z.of_nat (length cons) -
                              Z.of_nat (length rev)) 1).
        { injection Hdec as <-. apply Hone. lia. }
        destruct (Z.eqb_spec (Z.of_nat (length cons) -
                              Z.of_nat (length rev)) (-1)).
        { injection Hdec as <-. apply Hone. lia. }
        destruct (Z.eqb_spec (Z.of_nat (length cons) -
                              Z.of_nat (length rev)) 0);
          [lia | discriminate]. }
    destruct Hk as [k Hk]. exists k. split; [exact Hk|].
    apply Hincl. rewrite Hk. now left.
  - intros Heven. apply Nat.even_spec in Heven. destruct Heven as [h Hh].
    destruct (Nat.eqb_spec (length mem) 1) as [L|L]; [lia|].
    destruct (Z.eqb_spec (Z.of_nat (length cons) - Z.of_nat (length rev)) 1);
      [lia|].
    destruct (Z.eqb_spec (Z.of_nat (length cons) - Z.of_nat (length rev))
                (-1)); [lia|].
    destruct (Z.eqb_spec (Z.of_nat (length cons) - Z.of_nat (length rev)) 0);
      [now injection Hdec | discriminate].
Qed.

(** The groups of the example have 3, 1, 2 and 3 occurrences. *)
Lemma survivors_by_parity_witness :
  kept_faces_of unique_simplices_first example_faces = Ok [0; 3; 7]%nat /\
  (exists k, survivors example_faces [0; 3; 7]%nat (row example_faces 6) = [k]
             /\ In k (facet_group example_faces (row example_faces 6))) /\
  survivors example_faces [0; 3; 7]%nat (row example_faces 4) = [].
Proof.
  split; [reflexivity|].
  pose proof (survivors_by_parity unique_simplices_first example_faces
                [0; 3; 7]%nat eq_refl
                (unique_simplices_first_spec example_faces) eq_refl) as H.
  split.
  - apply (proj1 (H 6%nat ltac:(simpl; lia))). reflexivity.
  - apply (proj2 (H 4%nat ltac:(simpl; lia))). reflexivity.
Defined.

Lemma StronglySorted_lt_NoDup (l : list nat) : StronglySorted lt l -> NoDup l.
Proof.
  induction 1 as [|x l Hs IH Hall]; constructor; [|assumption].
  intros Hin. rewrite Forall_forall in Hall. specialize (Hall x Hin). lia.
Qed.

Lemma NoDup_below_length (l : list nat) (m : nat) :
  NoDup l -> Forall (fun x => (x < m)%nat) l -> (length l <= m)%nat.
Proof.
  intros Hnd Hall. rewrite <- (length_seq m 0).
  apply NoDup_incl_length; [assumption|].
  intros x Hx. rewrite Forall_forall in Hall. apply in_seq.
  specialize (Hall x Hx). lia.
Qed.

(** Under the contract there are no more unique faces than faces. *)
Lemma unique_faces_le (F : list Face) (S : Simplices) :
  unique_simplices_spec F S -> (length (uF S) <= length F)%nat.
Proof.
  intros Hspec.
  set (reps := map (fun u => nth u (IA S) 0%nat) (seq 0 (length (uF S)))).
  assert (Hnd : NoDup reps).
  { apply (NoDup_map_inv (fun a => nth a (IC S) 0%nat)). unfold reps.
    rewrite map_map.
    rewrite (map_ext_in _ (fun u => u)).
    - rewrite map_id. apply seq_NoDup.
    - intros u Hu. apply in_seq in Hu.
      now destruct (us_representative _ _ Hspec u ltac:(lia)) as (_ & ? & _). }
  assert (Hlt : Forall (fun x => (x < length F)%nat) reps).
  { apply Forall_forall. intros x Hx. unfold reps in Hx.
    apply in_map_iff in Hx. destruct Hx as (u & <- & Hu). apply in_seq in Hu.
    now destruct (us_representative _ _ Hspec u ltac:(lia)) as (? & _). }
  pose proof (NoDup_below_length reps (length F) Hnd Hlt) as H.
  unfold reps in H. now rewrite length_map, length_seq in H.
Qed.

(** X10. [resolve_duplicated_faces] invents nothing: it returns as many
    birth facets as facets, no more facets than [unique_simplices] found
    unique faces (hence no more than it was given), and every returned
    facet is a row of the input, returned with the birth facet of that
    row. *)
Theorem output_rows_are_input_rows
    (us : list Face -> Simplices) (F1 : list Face) (J1 : list Z)
    (F2 : list Face) (J2 : list Z) :
  Z.of_nat (length F1) < 2 ^ 31 ->
  unique_simplices_spec F1 (us F1) ->
  resolve_duplicated_faces us F1 J1 = Ok (F2, J2) ->
  length J2 = length F2 /\
  (length F2 <= length (uF (us F1)))%nat /\
  (length (uF (us F1)) <= length F1)%nat /\
  forall k, (k < length F2)%nat ->
    exists p, (p < length F1)%nat /\
              row F2 k = row F1 p /\ nth k J2 0 = nth p J1 0.
Proof.
  intros Hsize Hspec Hres.
  destruct (resolve_duplicated_faces_Ok us F1 J1 F2 J2 Hres)
    as (kept & Hkept & -> & ->).
  destruct (kept_faces_sorted us F1 Hsize Hspec kept Hkept) as [Hlt Hs].
  rewrite !length_map. split; [reflexivity|]. split; [|split].
  - rewrite <- (length_map (fun k => nth k (IC (us F1)) 0%nat) kept).
    apply NoDup_below_length; [now apply StronglySorted_lt_NoDup|].
    apply Forall_forall. intros x Hx. apply in_map_iff in Hx.
    destruct Hx as (k & <- & Hk). rewrite Forall_forall in Hlt.
    apply (us_IC_bound _ _ Hspec), Hlt, Hk.
  - now apply unique_faces_le.
  - intros k Hk. exists (nth k kept 0%nat). rewrite Forall_forall in Hlt.
    split; [apply Hlt, nth_In, Hk|]. split.
    + now apply row_map.
    + now apply (nth_map_lt (fun k => nth k J1 0) kept k 0 0%nat).
Qed.

(** The example: nine facets, four unique faces, three facets returned. *)
Lemma output_rows_are_input_rows_witness :
  resolve_duplicated_faces unique_simplices_first example_faces example_birth
  = Ok ([(0, 1, 2); (3, 4, 5); (10, 9, 8)], [100; 103; 107]) /\
  (3 <= length (uF (unique_simplices_first example_faces)))%nat /\
  (length (uF (unique_simplices_first example_faces))
   <= length example_faces)%nat.
Proof.
  split; [reflexivity|].
  destruct (output_rows_are_input_rows unique_simplices_first example_faces
              example_birth [(0, 1, 2); (3, 4, 5); (10, 9, 8)]
              [100; 103; 107] eq_refl
              (unique_simplices_first_spec example_faces) eq_refl)
    as (_ & H1 & H2 & _).
  split; [exact H1 | exact H2].
Defined.

Lemma filter_none {A} (p : A -> bool) (l : list A) :
  (forall x, In x l -> p x = false) -> filter p l = [].
Proof.
  induction l as [|x l IH]; intros H; simpl; [reflexivity|].
  rewrite (H x) by now left. apply IH. intros; apply H; now right.
Qed.

(** A test true at [i] only selects [i] alone among the first [n]
    numbers. *)
Lemma filter_seq_singleton (p : nat -> bool) (n i : nat) :
  (i < n)%nat -> p i = true ->
  (forall j, (j < n)%nat -> j <> i -> p j = false) ->
  filter p (seq 0 n) = [i].
Proof.
  induction n as [|n IH]; intros Hi Hp Hother; [lia|].
  rewrite seq_S, filter_app. simpl.
  destruct (Nat.eq_dec i n) as [->|Hne].
  - rewrite Hp, filter_none; [reflexivity|].
    intros x Hx. apply in_seq in Hx. apply Hother; lia.
  - rewrite IH, (Hother n) by (auto; try lia). reflexivity.
Qed.

Lemma combine_rows (F : list Face) (J : list Z) :
  length J = length F ->
  map (fun k => (row F k, nth k J 0)) (seq 0 (length F)) = combine F J.
Proof.
  revert J; induction F as [|f F IH]; intros [|j J] HJ; simpl in *;
    try discriminate; [reflexivity|].
  f_equal. rewrite <- seq_shift, map_map. apply IH. lia.
Qed.

Lemma combine_maps {A B D} (g : A -> B) (h : A -> D) (l : list A) :
  combine (map g l) (map h l) = map (fun x => (g x, h x)) l.
Proof. induction l; simpl; congruence. Qed.

(** X11. On a facet list in which no two facets have the same unordered
    triple the duplicate resolution never fails and drops nothing: it
    returns all the facets, each with its birth facet, in the order of
    their groups. *)
Theorem duplicate_free_input_kept
    (us : list Face -> Simplices) (F1 : list Face) (J1 : list Z) :
  Z.of_nat (length F1) < 2 ^ 31 ->
  unique_simplices_spec F1 (us F1) ->
  length J1 = length F1 ->
  distinct_simplices F1 ->
  exists F2 J2,
    resolve_duplicated_faces us F1 J1 = Ok (F2, J2) /\
    length F2 = length F1 /\
    Permutation (combine F2 J2) (combine F1 J1).
Proof.
  intros Hsize Hspec HJ Hdist.
  (* every group has one facet *)
  assert (Hgrp : forall i, (i < length F1)%nat ->
                           facet_group F1 (row F1 i) = [i]).
  { intros i Hi. unfold facet_group.
    apply filter_seq_singleton; [assumption | apply same_simplex_refl |].
    intros j Hj Hne.
    destruct (Nat.lt_total j i) as [Hlt|[Heq|Hgt]]; [|contradiction|].
    - apply Hdist. lia.
    - rewrite same_simplex_sym. apply Hdist. lia. }
  destruct (kept_faces_of_returns us F1 Hsize Hspec) as (kept & Hkept).
  { intros i Hi Hocc. rewrite (Hgrp i Hi) in Hocc. simpl in Hocc. lia. }
  unfold resolve_duplicated_faces. rewrite Hkept. simpl.
  eexists. eexists. split; [reflexivity|].
  (* every facet is kept, once *)
  assert (Hall : forall i, (i < length F1)%nat -> In i kept).
  { intros i Hi.
    pose proof (kept_faces_of_group us F1 Hsize Hspec kept i Hkept Hi) as H.
    unfold group_decision in H. rewrite (Hgrp i Hi) in H. simpl in H.
    injection H as H.
    assert (Hin : In i (survivors F1 kept (row F1 i)))
      by (rewrite <- H; now left).
    unfold survivors in Hin. now apply filter_In in Hin. }
  destruct (kept_faces_sorted us F1 Hsize Hspec kept Hkept) as [Hlt Hs].
  assert (Hperm : Permutation kept (seq 0 (length F1))).
  { apply NoDup_Permutation.
    - apply (NoDup_map_inv (fun k => nth k (IC (us F1)) 0%nat)).
      now apply StronglySorted_lt_NoDup.
    - apply seq_NoDup.
    - intros x. rewrite Forall_forall in Hlt. split.
      + intros Hx. apply in_seq. specialize (Hlt x Hx). lia.
      + intros Hx. apply in_seq in Hx. apply Hall. lia. }
  split.
  - rewrite length_map, (Permutation_length Hperm). apply length_seq.
  - rewrite combine_maps, <- (combine_rows F1 J1 HJ).
    now apply Permutation_map.
Qed.

(** The two tetrahedra of the examples, after the merge. *)
Lemma duplicate_free_input_kept_witness :
  resolve_duplicated_faces unique_simplices_first
    [(0, 2, 1); (0, 1, 3); (1, 2, 3); (2, 0, 3)] [5; 6; 7; 8]
  = Ok ([(0, 2, 1); (0, 1, 3); (1, 2, 3); (2, 0, 3)], [5; 6; 7; 8]) /\
  exists F2 J2,
    resolve_duplicated_faces unique_simplices_first
      [(0, 2, 1); (0, 1, 3); (1, 2, 3); (2, 0, 3)] [5; 6; 7; 8]
    = Ok (F2, J2) /\
    length F2 = 4%nat /\
    Permutation (combine F2 J2)
      (combine [(0, 2, 1); (0, 1, 3); (1, 2, 3); (2, 0, 3)] [5; 6; 7; 8]).
Proof.
  split; [reflexivity|].
  apply (duplicate_free_input_kept unique_simplices_first
           [(0, 2, 1); (0, 1, 3); (1, 2, 3); (2, 0, 3)] [5; 6; 7; 8]).
  - reflexivity.
  - apply unique_simplices_first_spec.
  - reflexivity.
  - intros a b Hab. simpl in Hab.
    destruct a as [|[|[|[|a]]]], b as [|[|[|[|b]]]]; try lia; reflexivity.
Defined.

(** X12. A facet followed by its reverse, as the boundary extraction
    produces it with [row.reverse()]: when the facet has three different
    indices the two cancel and the duplicate resolution returns nothing;
    when the facet has a repeated index its reverse is a rotation of it,
    the signed count is 2 and the call fails on the assertion
    [counts[i] == 0]. *)
Theorem facet_and_reverse
    (us : list Face -> Simplices) (f : Face) (J1 : list Z) :
  unique_simplices_spec [f; reverse f] (us [f; reverse f]) ->
  (pairwise_distinct f ->
   resolve_duplicated_faces us [f; reverse f] J1 = Ok ([], [])) /\
  (~ pairwise_distinct f ->
   resolve_duplicated_faces us [f; reverse f] J1 =
   Err (AssertionFailed "counts[i] == 0")).
Proof.
  intros Hspec.
  set (F1 := [f; reverse f]) in *.
  assert (Hsize : Z.of_nat (length F1) < 2 ^ 31) by (simpl; lia).
  assert (Hgrp : facet_group F1 (row F1 0) = [0; 1]%nat).
  { unfold facet_group, F1, row; simpl.
    now rewrite same_simplex_refl, same_simplex_reverse. }
  destruct (representative_in_group us F1 Hspec 0%nat ltac:(simpl; lia))
    as (a & Ha & Hrep).
  rewrite Hgrp in Ha.
  assert (Hrow : row F1 a = f \/ row F1 a = reverse f)
    by (destruct Ha as [<- | [<- | []]]; auto).
  clear Ha. rewrite <- Hrep in Hrow.
  split.
  - intros Hd.
    assert (Hc : consistent (reverse f) f = false).
    { destruct (consistent (reverse f) f) eqn:E; [|reflexivity].
      apply consistent_reverse_self in E. contradiction. }
    assert (Hdec : group_decision
              (facet_group F1 (row F1 0))
              (consistent_occurrences F1 (row F1 0) (representative (us F1) 0))
              (reversed_occurrences F1 (row F1 0) (representative (us F1) 0))
            = Ok []).
    { unfold consistent_occurrences, reversed_occurrences.
      rewrite Hgrp. simpl.
      change (row F1 0%nat) with f. change (row F1 1%nat) with (reverse f).
      destruct Hrow as [-> | ->].
      - rewrite consistent_refl, Hc. reflexivity.
      - rewrite consistent_refl, (consistent_sym f), Hc. reflexivity. }
    assert (Htot : exists kept, kept_faces_of us F1 = Ok kept).
    { rewrite (kept_faces_of_loop us F1 Hspec).
      eexists. apply push_groups_total. apply Forall_forall.
      intros u Hu. apply in_seq in Hu. exists [].
      assert (Hu' : (u < length (uF (us F1)))%nat) by apply Hu.
      destruct (us_representative F1 (us F1) Hspec u Hu') as (Hb & Hic & _).
      assert (Eu : nth (nth u (IA (us F1)) 0%nat) (IC (us F1)) 0%nat =
                   nth 0 (IC (us F1)) 0%nat).
      { assert (H0 : (0 < length F1)%nat) by (simpl; lia).
        apply (us_IC_group F1 (us F1) Hspec _ 0%nat Hb H0).
        simpl in Hb.
        destruct (nth u (IA (us F1)) 0%nat) as [|[|b]]; try lia;
          unfold F1, row; simpl;
          [apply same_simplex_refl | apply same_simplex_reverse]. }
      rewrite Hic in Eu. subst u.
      rewrite (resolve_group_contract us F1 Hsize Hspec) by assumption.
      rewrite (decide_group_of_facet us F1 Hspec) by (simpl; lia).
      exact Hdec. }
    destruct Htot as (kept & Hkept).
    unfold resolve_duplicated_faces. rewrite Hkept. simpl.
    pose proof (kept_faces_of_group us F1 Hsize Hspec kept 0 Hkept
                  ltac:(simpl; lia)) as Hsurv.
    rewrite Hdec in Hsurv. injection Hsurv as Hsurv.
    destruct (kept_faces_sorted us F1 Hsize Hspec kept Hkept) as [Hlt _].
    destruct kept as [|k kept]; [reflexivity|].
    inversion Hlt as [|? ? Hk _]; subst. simpl in Hk.
    unfold survivors in Hsurv. simpl in Hsurv.
    assert (E : same_simplex (row F1 k) (row F1 0) = true)
      by (destruct k as [|[|k]]; try lia; unfold F1, row; simpl;
          [apply same_simplex_refl | apply same_simplex_reverse]).
    rewrite E in Hsurv. discriminate.
  - intros Hd. apply consistent_reverse_self in Hd.
    apply (resolve_duplicated_faces_Err us F1 Hsize Hspec J1 0
             (AssertionFailed "counts[i] == 0") ltac:(simpl; lia)).
    unfold consistent_occurrences, reversed_occurrences.
    rewrite Hgrp. simpl.
    change (row F1 0%nat) with f. change (row F1 1%nat) with (reverse f).
    destruct Hrow as [-> | ->].
    + rewrite consistent_refl, Hd. reflexivity.
    + rewrite consistent_refl, (consistent_sym f), Hd. reflexivity.
Qed.

(** A proper facet and a facet with a repeated index. *)
Lemma facet_and_reverse_witness :
  resolve_duplicated_faces unique_simplices_first
    [(4, 5, 6); reverse (4, 5, 6)] [0; 1] = Ok ([], []) /\
  resolve_duplicated_faces unique_simplices_first
    [(4, 4, 6); reverse (4, 4, 6)] [0; 1]
  = Err (AssertionFailed "counts[i] == 0").
Proof.
  split.
  - apply (proj1 (facet_and_reverse unique_simplices_first (4, 5, 6) [0; 1]
                    (unique_simplices_first_spec _))).
    unfold pairwise_distinct, col0, col1, col2; simpl; lia.
  - apply (proj2 (facet_and_reverse unique_simplices_first (4, 4, 6) [0; 1]
                    (unique_simplices_first_spec _))).
    unfold pairwise_distinct, col0, col1, col2; simpl; lia.
Defined.

(** ** The default resolver (lines 36-58) *)

(** X13. The default resolver with a remesher that returns the vertices
    [Vr], the facets [Fr], the birth facets [J] and the vector [I]: when
    [I] has not one entry for every vertex the call stops on the assertion
    of line 49 and [remove_unreferenced] is not called; when every vertex is
    its own representative the facets go to [remove_unreferenced] as the
    remesher returned them, and the birth facets are returned as they
    are. *)
Theorem igl_resolve_outcomes {CoordA CoordE CoordC : Type}
    (lib : Collaborators CoordA CoordE CoordC)
    (V : Matrix CoordA) (F : list Face) (s : State CoordC)
    (Vr : Matrix CoordE) (Fr : list Face) (J Iv : list Z) :
  remesh_self_intersections lib V F = Ok (Vr, Fr, J, Iv) ->
  (length Iv <> length Vr ->
   igl_resolve lib V F s =
   (Err (AssertionFailed "I.size() == Vr.rows()"),
    mkState (out_VC s) (out_FC s) (out_J s)
            (calls s ++ [Call_remesh_self_intersections]))) /\
  (Iv = map Z.of_nat (seq 0 (length Vr)) ->
   Forall (in_bounds (length Vr)) Fr ->
   igl_resolve lib V F s =
   (match remove_unreferenced lib Vr Fr with
    | Ok (Vo, Fo, _) => Ok (Vo, Fo, J)
    | Err e => Err e
    end,
    mkState (out_VC s) (out_FC s) (out_J s)
            (calls s ++ [Call_remesh_self_intersections;
                         Call_remove_unreferenced]))).
Proof.
  intros Hremesh. split.
  - intros Hlen. unfold igl_resolve.
    unfold bind at 1. unfold invoke at 1. rewrite Hremesh.
    unfold bind at 1. unfold massert, rassert.
    destruct (Nat.eqb_spec (length Iv) (length Vr)); [contradiction|].
    reflexivity.
  - intros HI Hb. unfold igl_resolve.
    unfold bind at 1. unfold invoke at 1. rewrite Hremesh.
    unfold bind at 1. unfold massert, rassert.
    replace (length Iv =? length Vr)%nat with true
      by (subst Iv; now rewrite length_map, length_seq, Nat.eqb_refl).
    assert (HFr : map (map_face (fun a => nth (Z.to_nat a) Iv 0)) Fr = Fr).
    { rewrite <- (map_id Fr) at 2. apply map_ext_in. intros f Hf.
      rewrite Forall_forall in Hb. destruct (Hb f Hf) as (H0 & H1 & H2).
      destruct f as [[a b] c].
      unfold map_face, col0, col1, col2 in *; simpl in *. subst Iv.
      rewrite !(nth_seq_map Z.of_nat) by lia.
      now rewrite !Z2Nat.id by lia. }
    rewrite HFr. unfold bind, invoke, ret. simpl.
    destruct (remove_unreferenced lib Vr Fr) as [[[Vo Fo] UIM]|e]; simpl;
      rewrite <- app_assoc; reflexivity.
Qed.

(** The remesher of the examples on the tetrahedron. *)
Lemma igl_resolve_outcomes_witness :
  igl_resolve example_lib example_VA example_FA empty_state
  = (Ok (example_VA, example_FA, [0; 1; 2; 3]),
     mkState [] [] []
       [Call_remesh_self_intersections; Call_remove_unreferenced]) /\
  igl_resolve example_lib example_VA example_FA empty_state
  = (match remove_unreferenced example_lib example_VA example_FA with
     | Ok (Vo, Fo, _) => Ok (Vo, Fo, [0; 1; 2; 3])
     | Err e => Err e
     end,
     mkState [] [] []
       [Call_remesh_self_intersections; Call_remove_unreferenced]).
Proof.
  split; [reflexivity|].
  apply (proj2 (igl_resolve_outcomes example_lib example_VA example_FA
                  empty_state example_VA example_FA [0; 1; 2; 3]
                  [0; 1; 2; 3] eq_refl)).
  - reflexivity.
  - repeat (apply Forall_cons || apply Forall_nil);
      unfold in_bounds, col0, col1, col2; simpl; lia.
Defined.

Lemma push_groups_Err_inv (t : Tally) (groups acc : list nat) (e : error) :
  push_groups t groups acc = Err e ->
  exists u, In u groups /\ resolve_group t u = Err e.
Proof.
  revert acc; induction groups as [|u groups IH]; intros acc; simpl;
    [discriminate|].
  destruct (resolve_group t u) as [p|e'] eqn:E; simpl.
  - intros H. destruct (IH _ H) as (u' & Hin & Hu'). exists u'. auto.
  - intros [= <-]. exists u. auto.
Qed.

(** X14. [resolve_duplicated_faces] has one way to fail: the assertion on
    the signed count of line 154, and it fails there only when some group
    with more than one occurrence has a signed count other than -1, 0 and
    +1. The assertions [found] of lines 142 and 152 never fail, and under
    the contract of [unique_simplices] neither does that of line 103. *)
Theorem only_signed_count_fails
    (us : list Face -> Simplices) (F1 : list Face) (J1 : list Z)
    (e : error) :
  Z.of_nat (length F1) < 2 ^ 31 ->
  unique_simplices_spec F1 (us F1) ->
  resolve_duplicated_faces us F1 J1 = Err e ->
  e = AssertionFailed "counts[i] == 0" /\
  exists i, (i < length F1)%nat /\
    (1 < length (facet_group F1 (row F1 i)))%nat /\
    (signed_count F1 (row F1 i) (representative (us F1) i) < -1 \/
     1 < signed_count F1 (row F1 i) (representative (us F1) i)).
Proof.
  intros Hsize Hspec Hres. unfold resolve_duplicated_faces in Hres.
  destruct (kept_faces_of us F1) as [kept|e'] eqn:Hk; simpl in Hres;
    [discriminate|].
  injection Hres as ->.
  rewrite (kept_faces_of_loop us F1 Hspec) in Hk.
  apply push_groups_Err_inv in Hk. destruct Hk as (u & Hu & He).
  apply in_seq in Hu.
  assert (Hu' : (u < length (uF (us F1)))%nat) by lia.
  rewrite (resolve_group_contract us F1 Hsize Hspec u Hu') in He.
  destruct (us_representative F1 (us F1) Hspec u Hu') as (Ha & Hic & _).
  set (a := nth u (IA (us F1)) 0%nat) in *.
  rewrite <- Hic, (decide_group_of_facet us F1 Hspec a Ha) in He.
  split; [now apply group_decision_Err in He|].
  exists a. split; [exact Ha|].
  assert (Hin : In a (facet_group F1 (row F1 a))).
  { unfold facet_group. apply filter_In.
    split; [apply in_seq; lia | apply same_simplex_refl]. }
  unfold group_decision in He. unfold signed_count.
  destruct (Nat.eqb_spec (length (facet_group F1 (row F1 a))) 1) as [L|L];
    [discriminate|].
  destruct (Z.eqb_spec
    (Z.of_nat (length (consistent_occurrences F1 (row F1 a)
                         (representative (us F1) a))) -
     Z.of_nat (length (reversed_occurrences F1 (row F1 a)
                         (representative (us F1) a)))) 1);
    [discriminate|].
  destruct (Z.eqb_spec
    (Z.of_nat (length (consistent_occurrences F1 (row F1 a)
                         (representative (us F1) a))) -
     Z.of_nat (length (reversed_occurrences F1 (row F1 a)
                         (representative (us F1) a)))) (-1));
    [discriminate|].
  destruct (Z.eqb_spec
    (Z.of_nat (length (consistent_occurrences F1 (row F1 a)
                         (representative (us F1) a))) -
     Z.of_nat (length (reversed_occurrences F1 (row F1 a)
                         (representative (us F1) a)))) 0);
    [discriminate|].
  split; [|lia].
  destruct (facet_group F1 (row F1 a)) as [|? [|? ?]]; simpl in *;
    [tauto | congruence | lia].
Qed.

(** Three copies of a facet with the same orientation. *)
Lemma only_signed_count_fails_witness :
  resolve_duplicated_faces unique_simplices_first example_triple [0; 1; 2; 3]
  = Err (AssertionFailed "counts[i] == 0") /\
  exists i, (i < length example_triple)%nat /\
    (1 < length (facet_group example_triple (row example_triple i)))%nat /\
    (signed_count example_triple (row example_triple i)
       (representative (unique_simplices_first example_triple) i) < -1 \/
     1 < signed_count example_triple (row example_triple i)
           (representative (unique_simplices_first example_triple) i)).
Proof.
  split; [reflexivity|].
  apply (only_signed_count_fails unique_simplices_first example_triple
           [0; 1; 2; 3] (AssertionFailed "counts[i] == 0") eq_refl
           (unique_simplices_first_spec example_triple) eq_refl).
Defined.

(** ** Selection and labels (lines 215-217, 246-254) *)

Lemma filter_flat_map {A} (p : A -> bool) (l : list A) :
  filter p l = flat_map (fun x => if p x then [x] else []) l.
Proof.
  induction l as [|x l IH]; simpl; [reflexivity|].
  destruct (p x); simpl; now rewrite IH.
Qed.

(** X15. For every keep function, the loop of lines 246-254 selects the
    faces on which the function is not 0, each once and in the order of the
    facets, with a positive signed index where the function is positive and
    a negative one where it is negative. *)
Theorem selection_in_facet_order
    (keep : Z -> Z -> Z) (Wr : list (Z * Z)) (num_faces : nat) :
  Z.of_nat num_faces < 2 ^ 31 ->
  map signed_index_to_index (select_faces keep Wr num_faces) =
    filter (fun i => negb (keep (w_out_result Wr i) (w_in_result Wr i) =? 0))
           (seq 0 num_faces) /\
  Forall (fun s =>
            (0 <? s) =
            (0 <? keep (w_out_result Wr (signed_index_to_index s))
                       (w_in_result Wr (signed_index_to_index s))))
         (select_faces keep Wr num_faces).
Proof.
  intros Hn. rewrite select_faces_flat_map. split.
  - rewrite map_flat_map, filter_flat_map.
    apply flat_map_ext_in. intros i Hi. apply in_seq in Hi.
    unfold select_face.
    fold (w_out_result Wr i) (w_in_result Wr i).
    destruct (Z.ltb_spec 0 (keep (w_out_result Wr i) (w_in_result Wr i))).
    + simpl. unfold signed_index_to_index.
      fold (face_of_signed (index_to_signed_index i true)).
      rewrite face_of_index_to_signed_index by lia.
      replace (keep (w_out_result Wr i) (w_in_result Wr i) =? 0) with false
        by (symmetry; apply Z.eqb_neq; lia).
      reflexivity.
    + destruct (Z.ltb_spec (keep (w_out_result Wr i) (w_in_result Wr i)) 0).
      * simpl. unfold signed_index_to_index.
        fold (face_of_signed (index_to_signed_index i false)).
        rewrite face_of_index_to_signed_index by lia.
        replace (keep (w_out_result Wr i) (w_in_result Wr i) =? 0) with false
          by (symmetry; apply Z.eqb_neq; lia).
        reflexivity.
      * replace (keep (w_out_result Wr i) (w_in_result Wr i) =? 0) with true
          by (symmetry; apply Z.eqb_eq; lia).
        reflexivity.
  - apply Forall_forall. intros sgn Hs. apply in_flat_map in Hs.
    destruct Hs as (i & Hi & Hs). apply in_seq in Hi.
    unfold select_face in Hs.
    fold (w_out_result Wr i) (w_in_result Wr i) in Hs.
    destruct (Z.ltb_spec 0 (keep (w_out_result Wr i) (w_in_result Wr i)))
      as [Hpos|Hpos].
    + destruct Hs as [<-|[]]. unfold signed_index_to_index.
      fold (face_of_signed (index_to_signed_index i true)).
      rewrite face_of_index_to_signed_index,
        index_to_signed_index_positive by lia.
      symmetry. apply Z.ltb_lt. exact Hpos.
    + destruct (Z.ltb_spec (keep (w_out_result Wr i) (w_in_result Wr i)) 0);
        [|destruct Hs].
      destruct Hs as [<-|[]]. unfold signed_index_to_index.
      fold (face_of_signed (index_to_signed_index i false)).
      rewrite face_of_index_to_signed_index,
        index_to_signed_index_positive by lia.
      symmetry. apply Z.ltb_ge. exact Hpos.
Qed.

(** Three faces: kept, kept reversed, dropped. *)
Lemma selection_in_facet_order_witness :
  select_faces KeepInside [(0, 1); (1, 1); (1, 0)] 3 = [1; -3] /\
  map signed_index_to_index
      (select_faces KeepInside [(0, 1); (1, 1); (1, 0)] 3) = [0; 2]%nat /\
  map signed_index_to_index
      (select_faces KeepInside [(0, 1); (1, 1); (1, 0)] 3) =
  filter (fun i => negb (KeepInside
                           (w_out_result [(0, 1); (1, 1); (1, 0)] i)
                           (w_in_result [(0, 1); (1, 1); (1, 0)] i) =? 0))
         (seq 0 3).
Proof.
  split; [reflexivity|]. split; [reflexivity|].
  apply (proj1 (selection_in_facet_order KeepInside
                  [(0, 1); (1, 1); (1, 0)] 3 ltac:(simpl; lia))).
Defined.

Lemma to_int_range (z : Z) : - 2 ^ 31 <= to_int z < 2 ^ 31.
Proof.
  unfold to_int, int_modulus.
  pose proof (Z.mod_pos_bound (z + 2 ^ 31) (2 ^ 32) ltac:(lia)). lia.
Qed.

Lemma to_int_periodic (z k : Z) : to_int (z + k * 2 ^ 32) = to_int z.
Proof.
  unfold to_int, int_modulus.
  replace (z + k * 2 ^ 32 + 2 ^ 31) with (z + 2 ^ 31 + k * 2 ^ 32) by lia.
  now rewrite Z.mod_add by lia.
Qed.

(** X16. The labels given to the propagator are 0 or 1 whatever the birth
    facets are, one label for every birth facet; the lambda of lines
    216-217 takes the birth facet as an [int], so the label depends on the
    birth facet modulo 2^32 only: a birth facet that is 2^32 or more (in a
    vector of [long]) is labelled as the birth facet it wraps to. *)
Theorem labels_are_binary (FA_rows : nat) (CJ : list Z) :
  length (labels_of FA_rows CJ) = length CJ /\
  Forall (fun l => l = 0 \/ l = 1) (labels_of FA_rows CJ) /\
  labels_of FA_rows (map to_int CJ) = labels_of FA_rows CJ /\
  (forall k : Z,
     labels_of FA_rows (map (fun j => j + k * 2 ^ 32) CJ) =
     labels_of FA_rows CJ).
Proof.
  unfold labels_of. split; [apply length_map|]. split; [|split].
  - apply Forall_forall. intros l Hl. apply in_map_iff in Hl.
    destruct Hl as (j & <- & _). destruct (to_int j <? Z.of_nat FA_rows); auto.
  - rewrite map_map. apply map_ext. intros j.
    now rewrite (to_int_small (to_int j) (to_int_range j)).
  - intros k. rewrite map_map. apply map_ext. intros j.
    now rewrite to_int_periodic.
Qed.
